(** * Drag-and-drop project manager (src/src/app.ts): store, validation, form

    A shallow embedding of the TypeScript application.

    - JavaScript objects live in an explicit heap (Project objects and
      arrays of references to them), so that the sharing between the
      store's own array, the copies made by [slice] and the objects
      reachable through both is visible.
    - A listener is a function on that heap which returns or throws.  It
      can write to any object and any array, but it holds no reference to
      the store, so a callback that calls back into the store is outside
      the model.
    - The text that [Math.random().toString()] yields at a call of
      [addProject] is an argument of that call.
    - The document (template, elements, drawing) is left out; of the form
      only the values of its three inputs are kept, and of [alert] the
      fact that it was raised. *)

From Stdlib Require Import ZArith Ascii String.
From stdpp Require Import base tactics option list.

Local Open Scope string_scope.
Local Open Scope list_scope.

(** ** Strings of the JavaScript runtime *)

(** A character of a Rocq string stands for one UTF-16 code unit below 256.
    In that range the white space and line terminators of ECMAScript are
    TAB, LF, VT, FF, CR, SPACE and NBSP. *)
Definition is_js_whitespace (c : ascii) : bool :=
  let n := nat_of_ascii c in
  (((9 <=? n) && (n <=? 13)) || (n =? 32) || (n =? 160))%nat.

(** [String.prototype.trimStart] *)
Fixpoint trimStart (s : string) : string :=
  match s with
  | EmptyString => EmptyString
  | String c s' => if is_js_whitespace c then trimStart s' else s
  end.

(** [String.prototype.trimEnd] *)
Fixpoint trimEnd (s : string) : string :=
  match s with
  | EmptyString => EmptyString
  | String c s' =>
      match trimEnd s' with
      | EmptyString => if is_js_whitespace c then EmptyString else String c EmptyString
      | t => String c t
      end
  end.

(** [String.prototype.trim] *)
Definition trim (s : string) : string := trimEnd (trimStart s).

(** Every code unit of the string is white space (true of the empty string). *)
Fixpoint all_whitespace (s : string) : bool :=
  match s with
  | EmptyString => true
  | String c s' => is_js_whitespace c && all_whitespace s'
  end.

(** ** Numbers of the JavaScript runtime *)

(** The program uses numbers through four primitives only: the relational
    operator [<] (with [a > b] being [b < a]), the length of a string seen
    as a number, [Number.prototype.toString] and the conversion [Number(s)].
    They are taken as an interface, so that what is proved holds whatever
    the numbers are (fractions, NaN and the infinities included). *)
Class JSNumber := {
  number : Type;
  num_lt : number -> number -> bool;
  num_of_nat : nat -> number;
  num_toString : number -> string;
  toNumber : string -> number
}.

Definition num_gt `{JSNumber} (a b : number) : bool := num_lt b a.

(** *** The integer fragment: NaN and the integers

    An instance of the interface on which the statements can be run.  Its
    numbers are NaN and the integers, of which those of at most 2^53 in
    absolute value are numbers of the runtime (0 standing for both of its
    zeros, which the program never tells apart).  On these, comparison and
    [toString] are the runtime's; the conversion from texts is the
    runtime's on the texts described at [IntNum_of_string]. *)

Inductive IntNum := INaN | IInt (z : Z).

Definition digit_char (d : nat) : ascii := ascii_of_nat (48 + d).

Fixpoint nat_digits (fuel n : nat) (acc : string) : string :=
  match fuel with
  | 0 => acc
  | S f =>
      let acc' := String (digit_char (n mod 10)) acc in
      if (n / 10 =? 0)%nat then acc' else nat_digits f (n / 10) acc'
  end.

Definition nat_toString (n : nat) : string := nat_digits (S n) n EmptyString.

Definition IntNum_toString (x : IntNum) : string :=
  match x with
  | INaN => "NaN"
  | IInt z =>
      if (z <? 0)%Z then String "-"%char (nat_toString (Z.to_nat (Z.abs z)))
      else nat_toString (Z.to_nat z)
  end.

Definition IntNum_lt (a b : IntNum) : bool :=
  match a, b with
  | IInt x, IInt y => (x <? y)%Z
  | _, _ => false
  end.

(** Value of a string of decimal digits, [None] when another character occurs. *)
Fixpoint digits_value (s : string) (acc : nat) : option nat :=
  match s with
  | EmptyString => Some acc
  | String c s' =>
      let n := nat_of_ascii c in
      if ((48 <=? n) && (n <=? 57))%nat
      then digits_value s' (10 * acc + (n - 48))
      else None
  end.

(** [Number(s)] on the texts of the fragment.  These are the texts that,
    between optional white space, are empty or made of an optional sign
    followed by decimal digits, for an integer of at most 2^53 in absolute
    value: a blank text converts to 0, the others to the integer they
    denote, as in the runtime.  Beyond 2^53 the runtime rounds to a double
    and the integer is kept here.

    Every other text gives [INaN].  That is the runtime's answer for a
    text that denotes no number ("abc", "-", "1 2"); it is not for a text
    that denotes a number in another notation ("2.5", "3.", "3.0", "3e0",
    "0x3", "Infinity"), whose conversion the fragment does not give.
    Accordingly nothing is stated about [IntNum_of_string] on arbitrary
    texts: the statements about the form are made for every instance of
    [JSNumber], and the examples on the fragment convert the text "3"
    only. *)
Definition IntNum_of_string (s : string) : IntNum :=
  match trim s with
  | EmptyString => IInt 0
  | String c t =>
      if Ascii.eqb c "-"%char then
        match t with
        | EmptyString => INaN
        | _ => match digits_value t 0 with Some n => IInt (- Z.of_nat n) | None => INaN end
        end
      else if Ascii.eqb c "+"%char then
        match t with
        | EmptyString => INaN
        | _ => match digits_value t 0 with Some n => IInt (Z.of_nat n) | None => INaN end
        end
      else match digits_value (String c t) 0 with Some n => IInt (Z.of_nat n) | None => INaN end
  end.

#[export] Instance IntNumber : JSNumber := {|
  number := IntNum;
  num_lt := IntNum_lt;
  num_of_nat := fun n => IInt (Z.of_nat n);
  num_toString := IntNum_toString;
  toNumber := IntNum_of_string
|}.

(** ** Validation (app.ts, lines 93-121) *)

Section Validation.
Context `{JSNumber}.

(** [value: string | number] *)
Inductive JSValue := VStr (s : string) | VNum (n : number).

(** [value.toString()] *)
Definition toString (v : JSValue) : string :=
  match v with
  | VStr s => s
  | VNum n => num_toString n
  end.

(** [interface Validatable]; an optional property is [None] when absent. *)
Record Validatable := mkValidatable {
  value : JSValue;
  required : option bool;
  minLength : option number;
  maxLength : option number;
  min : option number;
  max : option number
}.

(** Truthiness of an optional boolean property. *)
Definition truthy (b : option bool) : bool :=
  match b with Some true => true | _ => false end.

Definition validateInput (validatableInput : Validatable) : bool :=
  let isValid := true in
  let isValid :=
    if truthy (required validatableInput)
    then isValid && negb (String.length (trim (toString (value validatableInput))) =? 0)%nat
    else isValid in
  let isValid :=
    match minLength validatableInput, value validatableInput with
    | Some m, VStr s => isValid && num_gt (num_of_nat (String.length s)) m
    | _, _ => isValid
    end in
  let isValid :=
    match maxLength validatableInput, value validatableInput with
    | Some m, VStr s => isValid && num_lt (num_of_nat (String.length s)) m
    | _, _ => isValid
    end in
  let isValid :=
    match min validatableInput, value validatableInput with
    | Some m, VNum n => isValid && num_gt n m
    | _, _ => isValid
    end in
  let isValid :=
    match max validatableInput, value validatableInput with
    | Some m, VNum n => isValid && num_lt n m
    | _, _ => isValid
    end in
  isValid.

End Validation.

Arguments mkValidatable {_} _ _ _ _ _ _.

(** ** Projects and the heap (app.ts, lines 123-133) *)

Inductive ProjectStatus := Active | Finished.

Definition ProjectStatus_eqb (a b : ProjectStatus) : bool :=
  match a, b with
  | Active, Active | Finished, Finished => true
  | _, _ => false
  end.

(** References to Project objects and to array objects. *)
Abbreviation oref := nat.
Abbreviation aref := nat.

(** The result of a call: it returns, or an exception leaves it.  Either
    way the state reached is kept, since effects are not rolled back. *)
Inductive Outcome (A : Type) := Returns (a : A) | Throws (a : A).
Arguments Returns {A} a.
Arguments Throws {A} a.

Definition outcome_state {A : Type} (r : Outcome A) : A :=
  match r with Returns a | Throws a => a end.

Definition returned {A : Type} (r : Outcome A) : bool :=
  match r with Returns _ => true | Throws _ => false end.

Section Store.
Context `{JSNumber}.

(** [class Project]: five public, writable fields. *)
Record Project := mkProject {
  id : string;
  title : string;
  description : string;
  people : number;
  status : ProjectStatus
}.

(** [project.status = s] *)
Definition with_status (s : ProjectStatus) (p : Project) : Project :=
  mkProject (id p) (title p) (description p) (people p) s.

(** [project.title = t] *)
Definition with_title (t : string) (p : Project) : Project :=
  mkProject (id p) t (description p) (people p) (status p).

(** The heap: Project objects and arrays of references to them.  A
    reference is the position of its object; allocation appends and
    nothing is ever freed. *)
Record Heap := mkHeap {
  objects : list Project;
  arrays : list (list oref)
}.

(** [new Project(...)] *)
Definition new_Project (p : Project) (h : Heap) : oref * Heap :=
  (length (objects h), mkHeap (objects h ++ [p]) (arrays h)).

Definition deref (h : Heap) (o : oref) : option Project := objects h !! o.

Definition write_object (o : oref) (p : Project) (h : Heap) : Heap :=
  mkHeap (<[o := p]> (objects h)) (arrays h).

Definition new_array (xs : list oref) (h : Heap) : aref * Heap :=
  (length (arrays h), mkHeap (objects h) (arrays h ++ [xs])).

Definition read_array (a : aref) (h : Heap) : list oref :=
  default [] (arrays h !! a).

(** Any change of the elements or of the length of the array [a]
    ([push], [pop], [a[i] = x], [a.length = n], [splice], ...). *)
Definition write_array (a : aref) (xs : list oref) (h : Heap) : Heap :=
  mkHeap (objects h) (<[a := xs]> (arrays h)).

(** [a.push(o)] *)
Definition push (a : aref) (o : oref) (h : Heap) : Heap :=
  write_array a (read_array a h ++ [o]) h.

(** [a.slice()]: a new array with the same elements. *)
Definition slice (a : aref) (h : Heap) : aref * Heap :=
  new_array (read_array a h) h.

(** The Project objects an array refers to, in order. *)
Definition items_of (a : aref) (h : Heap) : list Project :=
  omap (deref h) (read_array a h).

(** [a.find(f)]: the first element satisfying [f], with its reference. *)
Fixpoint array_find (f : Project -> bool) (h : Heap) (os : list oref)
  : option (oref * Project) :=
  match os with
  | [] => None
  | o :: os' =>
      match deref h o with
      | Some project => if f project then Some (o, project) else array_find f h os'
      | None => array_find f h os'
      end
  end.

(** ** The store (app.ts, lines 17-78) *)

(** [type Listener<T> = (items: T[]) => void]: a callback receives the
    reference of an array and runs on the heap. *)
Definition Listener : Type := aref -> Heap -> Outcome Heap.

(** The fields of [State<Project>] and [ProjectState]. *)
Record ProjectState := mkProjectState {
  listeners : list Listener;
  projects : aref
}.

(** What an observer of the run sees, in order.  The log is ghost state:
    no code of the program reads it. *)
Inductive Event :=
| EvAlert (msg : string)
| EvNotify (items : list Project)
| EvInvoke (k : nat) (a : aref) (items : list Project)
| EvComplete (k : nat).

Record World := mkWorld {
  heap : Heap;
  projectState : ProjectState;
  log : list Event
}.

Definition set_heap (h : Heap) (w : World) : World :=
  mkWorld h (projectState w) (log w).

Definition log_event (e : Event) (w : World) : World :=
  mkWorld (heap w) (projectState w) (log w ++ [e]).

(** The canonical list: the Projects of [projectState.projects]. *)
Definition canonical (w : World) : list Project :=
  items_of (projects (projectState w)) (heap w).

(** [State.addListener] *)
Definition addListener (listenerFn : Listener) (w : World) : World :=
  mkWorld (heap w)
          (mkProjectState (listeners (projectState w) ++ [listenerFn])
                          (projects (projectState w)))
          (log w).

(** The loop of [updateListeners], at the [k]-th listener:
    [listenerFn(this.projects.slice())]. *)
Fixpoint notify_from (k : nat) (ls : list Listener) (w : World) : Outcome World :=
  match ls with
  | [] => Returns w
  | listenerFn :: rest =>
      let '(a, h1) := slice (projects (projectState w)) (heap w) in
      let w1 := log_event (EvInvoke k a (items_of a h1)) (set_heap h1 w) in
      match listenerFn a h1 with
      | Returns h2 => notify_from (S k) rest (log_event (EvComplete k) (set_heap h2 w1))
      | Throws h2 => Throws (set_heap h2 w1)
      end
  end.

(** [ProjectState.updateListeners] *)
Definition updateListeners (w : World) : Outcome World :=
  notify_from 0 (listeners (projectState w)) (log_event (EvNotify (canonical w)) w).

(** [ProjectState.addProject]; [random] is the text that
    [Math.random().toString()] yields at this call. *)
Definition addProject (projectName projectDescription : string)
    (numPeople : number) (random : string) (w : World) : Outcome World :=
  let '(newProject, h1) :=
    new_Project (mkProject random projectName projectDescription numPeople Active)
                (heap w) in
  let h2 := push (projects (projectState w)) newProject h1 in
  updateListeners (set_heap h2 w).

(** [ProjectState.moveProject] *)
Definition moveProject (projectId : string) (newStatus : ProjectStatus)
    (w : World) : Outcome World :=
  match array_find (fun project => String.eqb (id project) projectId) (heap w)
                   (read_array (projects (projectState w)) (heap w)) with
  | Some (o, project) =>
      if negb (ProjectStatus_eqb (status project) newStatus)
      then updateListeners (set_heap (write_object o (with_status newStatus project) (heap w)) w)
      else Returns w
  | None => Returns w
  end.

(** ** The list components (app.ts, lines 205-268) *)

Inductive ListType := active | finished.

Definition shows (type : ListType) (project : Project) : bool :=
  match type with
  | active => ProjectStatus_eqb (status project) Active
  | finished => ProjectStatus_eqb (status project) Finished
  end.

(** The listener registered by [ProjectList.configure]: it filters the
    array it is given into a new array.  Keeping that array in the
    component and drawing it touch no Project and no array of the heap. *)
Definition ProjectList_listener (type : ListType) : Listener :=
  fun projects h =>
    let relevantProjects :=
      List.filter (fun o => match deref h o with
                            | Some project => shows type project
                            | None => false
                            end)
                  (read_array projects h) in
    Returns (snd (new_array relevantProjects h)).

(** [ProjectList.dropHandler]; [projectId] is the text carried by the drag. *)
Definition dropHandler (type : ListType) (projectId : string) (w : World)
  : Outcome World :=
  moveProject projectId (match type with active => Active | finished => Finished end) w.

(** ** The form (app.ts, lines 270-342) *)

(** The [value] of the three input elements. *)
Record ProjectInput := mkProjectInput {
  titleInputElement : string;
  descInputElement : string;
  peopleInputElement : string
}.

Definition getUserInput (this : ProjectInput) (w : World)
  : option (string * string * number) * World :=
  let title := titleInputElement this in
  let description := descInputElement this in
  let people := toNumber (peopleInputElement this) in
  let titleValidatable :=
    mkValidatable (VStr title) (Some true) None None None None in
  let descriptionValidatable :=
    mkValidatable (VStr description) (Some true) (Some (num_of_nat 5)) None None None in
  let peopleValidatable :=
    mkValidatable (VNum people) (Some true) None None
                  (Some (num_of_nat 1)) (Some (num_of_nat 5)) in
  if negb (validateInput titleValidatable)
     && negb (validateInput descriptionValidatable)
     && negb (validateInput peopleValidatable)
  then (None, log_event (EvAlert "Input is invalid. Please try again.") w)
  else (Some (title, description, people), w).

Definition clearUserInput (this : ProjectInput) : ProjectInput :=
  mkProjectInput "" "" "".

Definition submitHandler (this : ProjectInput) (random : string) (w : World)
  : Outcome (ProjectInput * World) :=
  match getUserInput this w with
  | (Some (title, description, people), w1) =>
      match addProject title description people random w1 with
      | Returns w2 => Returns (clearUserInput this, w2)
      | Throws w2 => Throws (this, w2)
      end
  | (None, w1) => Returns (this, w1)
  end.

(** ** The program as started (app.ts, lines 78 and 344-346) *)

(** [ProjectState.getInstance()] on first use: no listener, an empty array. *)
Definition ProjectState_new (h : Heap) : ProjectState * Heap :=
  let '(a, h1) := new_array [] h in (mkProjectState [] a, h1).

Definition initial_world : World :=
  let '(st, h) := ProjectState_new (mkHeap [] []) in
  addListener (ProjectList_listener finished)
    (addListener (ProjectList_listener active) (mkWorld h st [])).

(** ** Runs of store operations *)

Inductive Op :=
| OpAddListener (listenerFn : Listener)
| OpAddProject (projectName projectDescription : string) (numPeople : number)
               (random : string)
| OpMoveProject (projectId : string) (newStatus : ProjectStatus).

(** One operation; an exception that leaves it ends that call only. *)
Definition step (op : Op) (w : World) : World :=
  match op with
  | OpAddListener l => addListener l w
  | OpAddProject t d n r => outcome_state (addProject t d n r w)
  | OpMoveProject i s => outcome_state (moveProject i s w)
  end.

Definition run (ops : list Op) (w : World) : World :=
  fold_left (fun w op => step op w) ops w.

End Store.

(** ** Vocabulary of the statements *)

Section Vocabulary.
Context `{JSNumber}.

(** The store's array exists, refers to existing objects only, and to
    each of them once. *)
Definition wf (w : World) : Prop :=
  projects (projectState w) < length (arrays (heap w)) /\
  Forall (fun o => o < length (objects (heap w)))
         (read_array (projects (projectState w)) (heap w)) /\
  NoDup (read_array (projects (projectState w)) (heap w)).

(** From [h] to [h'] nothing that existed was written to, except
    possibly the array [a]: the objects are as they were, so are the
    arrays other than [a], and whatever is new was allocated since. *)
Definition heap_grows_around (a : aref) (h h' : Heap) : Prop :=
  objects h `prefix_of` objects h' /\
  length (arrays h) <= length (arrays h') /\
  forall b, b <> a -> b < length (arrays h) -> arrays h' !! b = arrays h !! b.

(** From [w] to [w'] the store is the same and nothing it owns was written
    to: same fields, same objects as far as they existed, same array. *)
Definition store_kept (w w' : World) : Prop :=
  projectState w' = projectState w /\
  objects (heap w) `prefix_of` objects (heap w') /\
  length (arrays (heap w)) <= length (arrays (heap w')) /\
  arrays (heap w') !! projects (projectState w)
    = arrays (heap w) !! projects (projectState w).

(** A listener that writes to nothing but the array it is given (and to
    what it allocates itself), whether it returns or throws. *)
Definition confined (l : Listener) : Prop :=
  forall a h, a < length (arrays h) -> heap_grows_around a h (outcome_state (l a h)).

Definition confined_op (op : Op) : Prop :=
  match op with
  | OpAddListener l => confined l
  | _ => True
  end.

(** A listener that never throws. *)
Definition total (l : Listener) : Prop :=
  forall a h, returned (l a h) = true.

(** A listener that changes the array it is given in an arbitrary way
    [f] (elements added, removed, replaced, reordered) and nothing else. *)
Definition array_mutator (f : list oref -> list oref) : Listener :=
  fun a h => Returns (write_array a (f (read_array a h)) h).

(** A listener that writes through the first element of the array it is
    given: [items[0].title = t]. *)
Definition title_writer (t : string) : Listener :=
  fun a h =>
    match read_array a h with
    | o :: _ =>
        match deref h o with
        | Some project => Returns (write_object o (with_title t project) h)
        | None => Returns h
        end
    | [] => Returns h
    end.

(** A listener that throws at once. *)
Definition thrower : Listener := fun _ h => Throws h.

Definition has_id (projectId : string) (project : Project) : bool :=
  String.eqb (id project) projectId.

(** The list with the status of the first project of that id set to [s]. *)
Fixpoint moved (projectId : string) (s : ProjectStatus) (ps : list Project)
  : list Project :=
  match ps with
  | [] => []
  | p :: ps' =>
      if has_id projectId p then with_status s p :: ps'
      else p :: moved projectId s ps'
  end.

(** What an operation makes of the list of projects. *)
Definition op_effect (op : Op) (ps : list Project) : list Project :=
  match op with
  | OpAddListener _ => ps
  | OpAddProject t d n r => ps ++ [mkProject r t d n Active]
  | OpMoveProject i s => moved i s ps
  end.

Definition is_notify (e : Event) : bool :=
  match e with EvNotify _ => true | _ => false end.

(** How many times [updateListeners] was entered. *)
Definition notifications (l : list Event) : nat :=
  length (List.filter is_notify l).

(** The calls of the listeners numbered from [k], one after the other:
    each call with the array it was given and the projects this array
    held, followed by its completion. *)
Fixpoint calls (k : nat) (ds : list (aref * list Project)) : list Event :=
  match ds with
  | [] => []
  | (a, items) :: ds' => EvInvoke k a items :: EvComplete k :: calls (S k) ds'
  end.

(** Arrays [refs] that all hold the projects [P]. *)
Definition holding (P : list Project) (refs : list aref)
  : list (aref * list Project) :=
  (fun a => (a, P)) <$> refs.

(** What it is for a listener [B], subscribed after all the listeners of a
    store, to be called last and as the [k]-th: the others have returned
    and left the state [w1]; then [B] is called, on the heap they left,
    with a new copy of the store's array, and the call ends as [B] ends. *)
Definition called_last (B : Listener) (k : nat) (w1 : World) : Outcome World :=
  let '(a, h1) := slice (projects (projectState w1)) (heap w1) in
  let st := projectState (addListener B w1) in
  match B a h1 with
  | Returns h2 =>
      Returns (mkWorld h2 st (log w1 ++ [EvInvoke k a (items_of a h1); EvComplete k]))
  | Throws h2 =>
      Throws (mkWorld h2 st (log w1 ++ [EvInvoke k a (items_of a h1)]))
  end.

(** The texts drawn from [Math.random().toString()] along a run. *)
Definition draws (ops : list Op) : list string :=
  omap (fun op => match op with OpAddProject _ _ _ r => Some r | _ => None end) ops.

End Vocabulary.

(** ** A session on the integer fragment, used in the examples *)

(** The program after one project was created through the store. *)
Definition shed_world : World :=
  outcome_state
    (addProject "Build shed" "Outdoor storage" (IInt 2) "0.5" initial_world).

(** Two creations for which [Math.random().toString()] yields the same text. *)
Definition same_draw_twice : list Op :=
  [OpAddProject "Build shed" "Outdoor storage" (IInt 2) "0.5";
   OpAddProject "Paint fence" "Front garden" (IInt 3) "0.5"].

(** A creation, a move and a second creation, with different draws. *)
Definition shed_session : list Op :=
  [OpAddProject "Build shed" "Outdoor storage" (IInt 2) "0.5";
   OpMoveProject "0.5" Finished;
   OpAddProject "Paint fence" "Front garden" (IInt 3) "0.25"].

(** The program with a third listener that writes a title through the
    array it is given, after one project was created. *)
Definition title_writer_world : World :=
  addListener (title_writer "Changed") shed_world.

(** The program with a listener that throws, subscribed between the two lists. *)
Definition thrower_world : World :=
  let '(st, h) := ProjectState_new (mkHeap [] []) in
  addListener (ProjectList_listener finished)
    (addListener thrower
      (addListener (ProjectList_listener active) (mkWorld h st []))).

(** ** Drag and drop (app.ts, lines 5-15, 184-192 and 216-235) *)

(** [DataTransfer]: the formats that were set with their data, in the order
    of the calls that set them last, and the allowed effect.  Formats are
    taken in the normal form the browser gives them (lower case). *)
Record DataTransfer := mkDataTransfer {
  dt_store : list (string * string);
  effectAllowed : string
}.

(** [dataTransfer.setData(format, data)]: the entry of that format, if
    there is one, is removed, and the new entry is added at the end. *)
Definition setData (format data : string) (dt : DataTransfer) : DataTransfer :=
  mkDataTransfer
    (List.filter (fun e => negb (String.eqb (fst e) format)) (dt_store dt)
     ++ [(format, data)])
    (effectAllowed dt).

(** [dataTransfer.getData(format)]: the empty string when nothing was set. *)
Definition getData (format : string) (dt : DataTransfer) : string :=
  match List.find (fun e => String.eqb (fst e) format) (dt_store dt) with
  | Some e => snd e
  | None => ""
  end.

(** [dataTransfer.types] *)
Definition types (dt : DataTransfer) : list string :=
  List.map fst (dt_store dt).

(** [DragEvent]: the transfer it carries, if any, and whether
    [preventDefault] was called on it. *)
Record DragEvent := mkDragEvent {
  dataTransfer : option DataTransfer;
  defaultPrevented : bool
}.

(** [event.preventDefault()] *)
Definition preventDefault (event : DragEvent) : DragEvent :=
  mkDragEvent (dataTransfer event) true.

(** [classList.add(token)] and [classList.remove(token)] *)
Definition classList_add (token : string) (classes : list string) : list string :=
  if List.existsb (String.eqb token) classes then classes else classes ++ [token].

Definition classList_remove (token : string) (classes : list string) : list string :=
  List.filter (fun c => negb (String.eqb c token)) classes.

Section DragAndDrop.
Context `{JSNumber}.

(** [ProjectItem.dragStartHandler]; [project] is the reference kept by the
    item.  Reading a property of a missing transfer throws. *)
Definition dragStartHandler (h : Heap) (project : oref) (event : DragEvent)
  : Outcome DragEvent :=
  match dataTransfer event, deref h project with
  | Some dt, Some p =>
      let dt1 := setData "text/plain" (id p) dt in
      Returns (mkDragEvent (Some (mkDataTransfer (dt_store dt1) "move"))
                           (defaultPrevented event))
  | _, _ => Throws event
  end.

(** [ProjectList.dragOverHandler]; [classes] is the class list of the [ul]
    of the list. *)
Definition dragOverHandler (classes : list string) (event : DragEvent)
  : DragEvent * list string :=
  match dataTransfer event with
  | Some dt =>
      match types dt with
      | t :: _ =>
          if String.eqb t "text/plain"
          then (preventDefault event, classList_add "droppable" classes)
          else (event, classes)
      | [] => (event, classes)
      end
  | None => (event, classes)
  end.

(** [ProjectList.dragLeaveHandler] *)
Definition dragLeaveHandler (classes : list string) : list string :=
  classList_remove "droppable" classes.

(** [ProjectList.dropHandler] on the event itself. *)
Definition ProjectList_dropHandler (type : ListType) (event : DragEvent)
    (w : World) : Outcome World :=
  match dataTransfer event with
  | Some dt => dropHandler type (getData "text/plain" dt) w
  | None => Throws w
  end.

(** The status a list stands for. *)
Definition list_status (type : ListType) : ProjectStatus :=
  match type with active => Active | finished => Finished end.

End DragAndDrop.

Section RunVocabulary.
Context `{JSNumber}.


(** The listeners subscribed along a run, in order. *)
Definition subscribed (ops : list Op) : list Listener :=
  omap (fun op => match op with OpAddListener l => Some l | _ => None end) ops.

End RunVocabulary.

(** The program with nothing but its two lists as listeners, in a state
    with three projects of which the second is finished. *)
Definition three_sheds_session : list Op :=
  [OpAddProject "Build shed" "Outdoor storage" (IInt 2) "0.5";
   OpAddProject "Paint fence" "Front garden" (IInt 3) "0.25";
   OpAddProject "Fix gate" "Back garden" (IInt 4) "0.75";
   OpMoveProject "0.25" Finished].

Definition three_sheds_world : World := run three_sheds_session initial_world.

(** Two projects with the same id, the second one shadowed by the first. *)
Definition same_draw_world : World := run same_draw_twice initial_world.

(** * Properties *)

(** ** Trimming *)

Lemma trimStart_blank (s : string) :
  trimStart s = EmptyString <-> all_whitespace s = true.
Proof.
  induction s as [|c s IH]; simpl; [tauto|].
  destruct (is_js_whitespace c); simpl; [exact IH|].
  split; discriminate.
Qed.

Lemma trimEnd_blank (s : string) :
  trimEnd s = EmptyString <-> all_whitespace s = true.
Proof.
  induction s as [|c s IH]; simpl; [tauto|].
  destruct (trimEnd s) as [|d t].
  - destruct (is_js_whitespace c); simpl; [tauto|].
    split; discriminate.
  - split; [discriminate|].
    intros Hall. apply andb_prop in Hall as [_ Hs].
    apply IH in Hs. discriminate.
Qed.

Lemma trimStart_whitespace (s : string) :
  all_whitespace (trimStart s) = all_whitespace s.
Proof.
  induction s as [|c s IH]; simpl; [reflexivity|].
  destruct (is_js_whitespace c) eqn:Hc; simpl; [exact IH|].
  now rewrite Hc.
Qed.

Lemma trim_blank (s : string) :
  String.length (trim s) = 0 <-> all_whitespace s = true.
Proof.
  unfold trim. rewrite <- trimStart_whitespace, <- trimEnd_blank.
  destruct (trimEnd (trimStart s)); simpl; split; congruence.
Qed.

(** ** Validation *)

(** C5. [validateInput] accepts exactly when every constraint that is
    present and applies to the kind of the value holds: [required] asks
    for a text that is not blank once trimmed, [minLength] and [maxLength]
    bind strings only, [min] and [max] bind numbers only, an absent
    constraint binds nothing, and the four comparisons are the strict
    [>] and [<] (on integers, [a < b] is the strict order, so a value
    equal to its bound is refused). *)
Theorem validateInput_iff_constraints :
  (forall (N : JSNumber) (v : Validatable),
    validateInput v = true <->
      (required v = Some true ->
         String.length (trim (toString (value v))) <> 0) /\
      (forall m s, minLength v = Some m -> value v = VStr s ->
         num_gt (num_of_nat (String.length s)) m = true) /\
      (forall m s, maxLength v = Some m -> value v = VStr s ->
         num_lt (num_of_nat (String.length s)) m = true) /\
      (forall m n, min v = Some m -> value v = VNum n -> num_gt n m = true) /\
      (forall m n, max v = Some m -> value v = VNum n -> num_lt n m = true)) /\
  (forall a b : Z,
     (@num_gt IntNumber (IInt a) (IInt b) = true <-> (a > b)%Z) /\
     (@num_lt IntNumber (IInt a) (IInt b) = true <-> (a < b)%Z)).
Proof.
  split.
  - intros N [val req mnl mxl mn mx]. unfold validateInput. simpl.
    destruct req as [[|]|], mnl, mxl, mn, mx, val; simpl;
      rewrite ?andb_true_iff, ?negb_true_iff, ?Nat.eqb_neq;
      (split; [intros; destruct_and?; repeat split; intros; simplify_eq; eauto
              |intros (Hr & Hmnl & Hmxl & Hmn & Hmx); repeat split; eauto]).
  - intros a b. unfold num_gt. simpl. rewrite !Z.ltb_lt. lia.
Qed.

(** C9. With [required] set, [validateInput] adds exactly one test to the
    other constraints: the value, converted to a string and trimmed, is
    not empty.  Alone, [required] accepts exactly the values that pass
    this test; a string made of white space only fails it and the number
    0, whose text is "0", passes it. *)
Theorem required_iff_trimmed_nonempty :
  (forall (N : JSNumber) v mnl mxl mn mx,
     validateInput (mkValidatable v (Some true) mnl mxl mn mx) =
       negb (String.length (trim (toString v)) =? 0)%nat
       && validateInput (mkValidatable v None mnl mxl mn mx)) /\
  (forall (N : JSNumber) v,
     validateInput (mkValidatable v (Some true) None None None None) = true <->
       String.length (trim (toString v)) <> 0) /\
  (forall (N : JSNumber) s mnl mxl mn mx,
     all_whitespace s = true ->
     validateInput (mkValidatable (VStr s) (Some true) mnl mxl mn mx) = false) /\
  toString (VNum (IInt 0)) = "0" /\
  validateInput (mkValidatable (VNum (IInt 0)) (Some true) None None None None) = true.
Proof.
  assert (Hfactor : forall (N : JSNumber) v mnl mxl mn mx,
     validateInput (mkValidatable v (Some true) mnl mxl mn mx) =
       negb (String.length (trim (toString v)) =? 0)%nat
       && validateInput (mkValidatable v None mnl mxl mn mx)).
  { intros N v mnl mxl mn mx. unfold validateInput. simpl.
    destruct (negb (String.length (trim (toString v)) =? 0)%nat);
      destruct mnl, mxl, mn, mx, v; simpl; reflexivity. }
  split; [exact Hfactor|]. split; [|split; [|split]].
  - intros N v. rewrite Hfactor. unfold validateInput at 1. simpl.
    rewrite andb_true_r, negb_true_iff, Nat.eqb_neq. destruct v; reflexivity.
  - intros N s mnl mxl mn mx Hs. rewrite Hfactor. simpl.
    apply trim_blank in Hs. rewrite Hs. reflexivity.
  - reflexivity.
  - reflexivity.
Qed.

(** ** The form *)

(** What [getUserInput] does in general: it alerts and yields nothing only
    when the title, the description and the number of people are all three
    refused by [validateInput]. *)
Lemma getUserInput_abandons_iff `{JSNumber} (this : ProjectInput) (w : World) :
  fst (getUserInput this w) = None <->
    validateInput (mkValidatable (VStr (titleInputElement this))
                                 (Some true) None None None None) = false /\
    validateInput (mkValidatable (VStr (descInputElement this))
                                 (Some true) (Some (num_of_nat 5)) None None None) = false /\
    validateInput (mkValidatable (VNum (toNumber (peopleInputElement this)))
                                 (Some true) None None
                                 (Some (num_of_nat 1)) (Some (num_of_nat 5))) = false.
Proof.
  unfold getUserInput.
  destruct (validateInput (mkValidatable (VStr (titleInputElement this)) _ _ _ _ _));
  destruct (validateInput (mkValidatable (VStr (descInputElement this)) _ _ _ _ _));
  destruct (validateInput (mkValidatable (VNum _) _ _ _ _ _));
  simpl; split; intros; destruct_and?; try discriminate; auto.
Qed.

(** C1, at the form with an empty title, the description
    "Outdoor storage" and 3 people: the title is refused by
    [validateInput], yet [submitHandler] alerts nobody, creates the project
    with the empty title and clears the form. *)
Theorem submitHandler_accepts_empty_title :
  let this := mkProjectInput "" "Outdoor storage" "3" in
  let r := submitHandler this "0.5" initial_world in
  validateInput (mkValidatable (VStr (titleInputElement this))
                               (Some true) None None None None) = false /\
  canonical initial_world = [] /\
  returned r = true /\
  fst (outcome_state r) = clearUserInput this /\
  canonical (snd (outcome_state r))
    = [mkProject "0.5" "" "Outdoor storage" (IInt 3) Active] /\
  List.existsb (fun e => match e with EvAlert _ => true | _ => false end)
               (log (snd (outcome_state r))) = false.
Proof.
  intros this r. subst this r. repeat split; vm_compute; reflexivity.
Qed.

(** ** The heap *)

Section StoreFacts.
Context `{JSNumber}.

Lemma deref_prefix (h h' : Heap) (o : oref) :
  objects h `prefix_of` objects h' -> o < length (objects h) ->
  deref h' o = deref h o.
Proof.
  unfold deref. intros Hpre Ho.
  apply lookup_lt_is_Some_2 in Ho as [p Hp]. rewrite Hp.
  eapply prefix_lookup_Some; eauto.
Qed.

Lemma omap_deref_agree (h h' : Heap) (os : list oref) :
  Forall (fun o => deref h' o = deref h o) os ->
  omap (deref h') os = omap (deref h) os.
Proof.
  induction 1 as [|o os Ho _ IH]; [reflexivity|].
  cbn. rewrite Ho, IH. reflexivity.
Qed.

Lemma omap_deref_prefix (h h' : Heap) (os : list oref) :
  objects h `prefix_of` objects h' ->
  Forall (fun o => o < length (objects h)) os ->
  omap (deref h') os = omap (deref h) os.
Proof.
  intros Hpre Hos. apply omap_deref_agree.
  eapply Forall_impl; [exact Hos|]. intros o Ho. now apply deref_prefix.
Qed.

Lemma omap_deref_valid (h : Heap) (os : list oref) :
  Forall (fun o => o < length (objects h)) os ->
  length (omap (deref h) os) = length os.
Proof.
  induction 1 as [|o os Ho _ IH]; [reflexivity|].
  cbn. unfold deref at 1.
  apply lookup_lt_is_Some_2 in Ho as [p Hp]. rewrite Hp. cbn. now rewrite IH.
Qed.

Lemma store_kept_refl (w : World) : store_kept w w.
Proof. unfold store_kept. auto. Qed.

Lemma store_kept_trans (w1 w2 w3 : World) :
  store_kept w1 w2 -> store_kept w2 w3 -> store_kept w1 w3.
Proof.
  intros (Hs1 & Ho1 & Hl1 & Ha1) (Hs2 & Ho2 & Hl2 & Ha2).
  unfold store_kept. rewrite Hs2, Hs1. repeat split.
  - etrans; eauto.
  - lia.
  - rewrite <- Ha1. rewrite <- Hs1. exact Ha2.
Qed.

Lemma store_kept_read (w w' : World) :
  store_kept w w' ->
  read_array (projects (projectState w')) (heap w')
    = read_array (projects (projectState w)) (heap w).
Proof.
  intros (Hs & _ & _ & Ha). unfold read_array. now rewrite Hs, Ha.
Qed.

Lemma store_kept_canonical (w w' : World) :
  wf w -> store_kept w w' -> canonical w' = canonical w.
Proof.
  intros (_ & Hval & _) Hk. unfold canonical, items_of.
  rewrite (store_kept_read _ _ Hk).
  destruct Hk as (_ & Hpre & _). now apply omap_deref_prefix.
Qed.

Lemma store_kept_wf (w w' : World) :
  wf w -> store_kept w w' -> wf w'.
Proof.
  intros (Hp & Hval & Hnd) Hk. unfold wf.
  rewrite (store_kept_read _ _ Hk).
  destruct Hk as (Hs & Hpre & Hlen & _). rewrite Hs.
  split; [lia|]. split; [|exact Hnd].
  eapply Forall_impl; [exact Hval|]. intros o Ho. simpl in Ho.
  apply prefix_length in Hpre. lia.
Qed.

(** ** Notification *)

Lemma slice_items (w : World) :
  let '(a, h1) := slice (projects (projectState w)) (heap w) in
  a = length (arrays (heap w)) /\
  read_array a h1 = read_array (projects (projectState w)) (heap w) /\
  items_of a h1 = canonical w.
Proof.
  unfold slice, new_array, canonical, items_of, read_array. simpl.
  rewrite list_lookup_middle by reflexivity. simpl. auto.
Qed.

Lemma notify_step_kept (w : World) (l : Listener) :
  wf w -> confined l ->
  let '(a, h1) := slice (projects (projectState w)) (heap w) in
  forall w2, heap w2 = outcome_state (l a h1) ->
             projectState w2 = projectState w ->
  store_kept w w2.
Proof.
  intros (Hp & _ & _) Hl. unfold slice, new_array.
  intros w2 Hh2 Hs2.
  specialize (Hl (length (arrays (heap w)))
                 (mkHeap (objects (heap w))
                         (arrays (heap w) ++
                          [read_array (projects (projectState w)) (heap w)]))).
  destruct Hl as (Hpre & Hlen & Hoth);
    [simpl; rewrite length_app; simpl; lia|].
  simpl in Hpre, Hlen, Hoth. rewrite length_app in Hlen, Hoth.
  simpl in Hlen, Hoth.
  unfold store_kept. rewrite Hh2, Hs2. repeat split; auto.
  - lia.
  - rewrite Hoth by lia. now rewrite lookup_app_l.
Qed.

Lemma notify_from_kept (k : nat) (ls : list Listener) (w : World) :
  wf w -> Forall confined ls ->
  store_kept w (outcome_state (notify_from k ls w)).
Proof.
  revert k w. induction ls as [|l ls IH]; intros k w Hwf Hls.
  - apply store_kept_refl.
  - apply Forall_cons in Hls as [Hl Hls]. cbn [notify_from].
    pose proof (notify_step_kept w l Hwf Hl) as Hstep.
    destruct (slice (projects (projectState w)) (heap w)) as [a h1].
    destruct (l a h1) as [h2|h2] eqn:Hr; cbn [outcome_state] in *.
    + match goal with |- context [notify_from (S k) ls ?x] => set (w2 := x) end.
      assert (Hk : store_kept w w2) by (apply Hstep; reflexivity).
      eapply store_kept_trans; [exact Hk|].
      apply IH; [|exact Hls]. eapply store_kept_wf; eauto.
    + apply Hstep; reflexivity.
Qed.

Lemma notify_from_log (k : nat) (ls : list Listener) (w : World) :
  exists ds,
    match notify_from k ls w with
    | Returns w' =>
        length ds = length ls /\
        log w' = log w ++ calls k ds
    | Throws w' =>
        length ds < length ls /\
        exists a items,
          log w' = log w ++ calls k ds ++ [EvInvoke (k + length ds) a items] /\
          (wf w -> Forall confined ls -> items = canonical w)
    end /\
    (wf w -> Forall confined ls ->
     Forall (fun d => length (arrays (heap w)) <= fst d /\ snd d = canonical w) ds).
Proof.
  revert k w. induction ls as [|l ls IH]; intros k w.
  - exists []. simpl. rewrite app_nil_r. auto.
  - cbn [notify_from].
    pose proof (notify_step_kept w l) as Hstep.
    pose proof (slice_items w) as Hsl.
    destruct (slice (projects (projectState w)) (heap w)) as [a h1].
    destruct Hsl as (Ha & _ & Hitems). rewrite Hitems.
    destruct (l a h1) as [h2|h2] eqn:Hr; cbn [outcome_state] in *.
    + match goal with |- context [notify_from (S k) ls ?x] => set (w2 := x) end.
      destruct (IH (S k) w2) as (ds & Hlog & Hds).
      assert (Hk : wf w -> Forall confined (l :: ls) -> store_kept w w2).
      { intros Hwf Hls. apply Forall_cons in Hls as [Hl _].
        apply Hstep; auto. }
      exists ((a, canonical w) :: ds). split.
      * destruct (notify_from (S k) ls w2) as [w'|w'].
        -- destruct Hlog as [Hlen Hlog]. split; [simpl; lia|].
           rewrite Hlog. subst w2. simpl. rewrite <- !app_assoc. reflexivity.
        -- destruct Hlog as [Hlen (b & items & Hlog & Hitems')].
           split; [simpl; lia|]. exists b, items. split.
           ++ rewrite Hlog. subst w2. simpl. rewrite <- !app_assoc. simpl.
              replace (k + S (length ds)) with (S (k + length ds)) by lia.
              reflexivity.
           ++ intros Hwf Hls. specialize (Hk Hwf Hls).
              rewrite <- (store_kept_canonical _ _ Hwf Hk).
              apply Forall_cons in Hls as [_ Hls].
              apply Hitems'; [eapply store_kept_wf; eauto|exact Hls].
      * intros Hwf Hls. specialize (Hk Hwf Hls).
        constructor; [simpl; split; [lia|reflexivity]|].
        apply Forall_cons in Hls as [_ Hls].
        eapply Forall_impl; [apply Hds; [eapply store_kept_wf; eauto|exact Hls]|].
        intros d [Hd1 Hd2]. cbv beta. rewrite Hd2.
        rewrite (store_kept_canonical _ _ Hwf Hk).
        destruct Hk as (_ & _ & Hlen & _). split; [lia|reflexivity].
    + exists []. split; [|constructor]. split; [simpl; lia|].
      exists a, (canonical w). simpl. rewrite Nat.add_0_r. auto.
Qed.

Lemma notify_from_total (k : nat) (ls : list Listener) (w : World) :
  Forall total ls -> returned (notify_from k ls w) = true.
Proof.
  revert k w. induction ls as [|l ls IH]; intros k w Hls; [reflexivity|].
  apply Forall_cons in Hls as [Hl Hls]. cbn [notify_from].
  destruct (slice (projects (projectState w)) (heap w)) as [a h1].
  specialize (Hl a h1). destruct (l a h1); [apply IH; exact Hls|discriminate].
Qed.

(** The loop itself never enters [updateListeners]. *)
Lemma notify_from_events (k : nat) (ls : list Listener) (w : World) :
  exists evs,
    log (outcome_state (notify_from k ls w)) = log w ++ evs /\
    notifications evs = 0.
Proof.
  revert k w. induction ls as [|l ls IH]; intros k w.
  - exists []. simpl. now rewrite app_nil_r.
  - cbn [notify_from].
    destruct (slice (projects (projectState w)) (heap w)) as [a h1].
    destruct (l a h1) as [h2|h2]; cbn [outcome_state].
    + destruct (IH (S k) (log_event (EvComplete k)
                 (set_heap h2 (log_event (EvInvoke k a (items_of a h1))
                                         (set_heap h1 w))))) as (evs & Hlog & Hn).
      exists (EvInvoke k a (items_of a h1) :: EvComplete k :: evs).
      split; [|exact Hn]. rewrite Hlog. simpl. rewrite <- !app_assoc. reflexivity.
    + exists [EvInvoke k a (items_of a h1)]. split; reflexivity.
Qed.

End StoreFacts.

(** ** The operations of the store *)

Section OperationFacts.
Context `{JSNumber}.

Lemma notifications_app (l1 l2 : list Event) :
  notifications (l1 ++ l2) = notifications l1 + notifications l2.
Proof. unfold notifications. now rewrite List.filter_app, length_app. Qed.

Lemma calls_notifications (k : nat) (ds : list (aref * list Project)) :
  notifications (calls k ds) = 0.
Proof.
  revert k. induction ds as [|[a items] ds IH]; intros k; [reflexivity|apply IH].
Qed.

Lemma updateListeners_events (w : World) :
  exists evs,
    log (outcome_state (updateListeners w))
      = log w ++ EvNotify (canonical w) :: evs /\
    notifications evs = 0.
Proof.
  unfold updateListeners.
  destruct (notify_from_events 0 (listeners (projectState w))
              (log_event (EvNotify (canonical w)) w)) as (evs & Hlog & Hn).
  exists evs. split; [|exact Hn]. rewrite Hlog. simpl.
  now rewrite <- app_assoc.
Qed.

Lemma updateListeners_kept (w : World) :
  wf w -> Forall confined (listeners (projectState w)) ->
  store_kept w (outcome_state (updateListeners w)).
Proof.
  intros Hwf Hls. unfold updateListeners.
  apply (notify_from_kept 0 _ (log_event (EvNotify (canonical w)) w)); assumption.
Qed.

Lemma updateListeners_log (w : World) :
  exists ds,
    match updateListeners w with
    | Returns w' =>
        length ds = length (listeners (projectState w)) /\
        log w' = log w ++ EvNotify (canonical w) :: calls 0 ds
    | Throws w' =>
        length ds < length (listeners (projectState w)) /\
        exists a items,
          log w' = log w ++ EvNotify (canonical w) :: calls 0 ds
                         ++ [EvInvoke (length ds) a items] /\
          (wf w -> Forall confined (listeners (projectState w)) ->
           items = canonical w)
    end /\
    (wf w -> Forall confined (listeners (projectState w)) ->
     Forall (fun d => length (arrays (heap w)) <= fst d /\ snd d = canonical w) ds).
Proof.
  unfold updateListeners.
  destruct (notify_from_log 0 (listeners (projectState w))
              (log_event (EvNotify (canonical w)) w)) as (ds & Hlog & Hds).
  exists ds. split; [|exact Hds].
  destruct (notify_from 0 _ _) as [w'|w'].
  - destruct Hlog as [Hlen Hlog]. split; [exact Hlen|].
    rewrite Hlog. simpl. now rewrite <- app_assoc.
  - destruct Hlog as [Hlen (a & items & Hlog & Hitems)]. split; [exact Hlen|].
    exists a, items. split; [|exact Hitems].
    rewrite Hlog. simpl. now rewrite <- app_assoc.
Qed.

Lemma updateListeners_total (w : World) :
  Forall total (listeners (projectState w)) ->
  returned (updateListeners w) = true.
Proof. intros Hls. unfold updateListeners. now apply notify_from_total. Qed.

(** The state in which [addProject] calls [updateListeners]. *)
Lemma push_new_canonical (w : World) (p : Project) :
  wf w ->
  let w0 := set_heap (push (projects (projectState w)) (length (objects (heap w)))
                           (mkHeap (objects (heap w) ++ [p]) (arrays (heap w)))) w in
  wf w0 /\ canonical w0 = canonical w ++ [p].
Proof.
  intros (Hp & Hval & Hnd) w0.
  assert (Hread : read_array (projects (projectState w0)) (heap w0)
                  = read_array (projects (projectState w)) (heap w)
                    ++ [length (objects (heap w))]).
  { subst w0. unfold push, write_array, read_array. simpl.
    now rewrite list_lookup_insert_eq by exact Hp. }
  split.
  - unfold wf. rewrite Hread. subst w0. simpl.
    rewrite length_insert, length_app. simpl.
    split; [exact Hp|]. split.
    + apply Forall_app. split; [|repeat constructor; lia].
      eapply Forall_impl; [exact Hval|]. intros o Ho. simpl in Ho. lia.
    + apply NoDup_app. split; [exact Hnd|]. split; [|apply NoDup_singleton].
      intros o Ho Hin. apply list_elem_of_singleton in Hin. subst o.
      rewrite Forall_forall in Hval. apply Hval in Ho. lia.
  - unfold canonical, items_of. rewrite Hread. subst w0. simpl.
    rewrite omap_app. f_equal.
    + apply (omap_deref_prefix (heap w)); [|exact Hval].
      simpl. now apply prefix_app_r.
    + cbn. unfold deref. simpl. now rewrite list_lookup_middle.
Qed.

Lemma array_find_find (f : Project -> bool) (h : Heap) (os : list oref) :
  snd <$> array_find f h os = List.find f (omap (deref h) os).
Proof.
  induction os as [|o os IH]; [reflexivity|].
  cbn. destruct (deref h o) as [p|]; [|exact IH].
  cbn. destruct (f p); [reflexivity|exact IH].
Qed.

Lemma array_find_Some (f : Project -> bool) (h : Heap) (os : list oref) o p :
  array_find f h os = Some (o, p) ->
  o ∈ os /\ deref h o = Some p /\ f p = true.
Proof.
  induction os as [|o' os IH]; [discriminate|].
  cbn. destruct (deref h o') as [q|] eqn:Hq.
  - destruct (f q) eqn:Hf.
    + intros [= -> ->]. split; [left|]. auto.
    + intros Hfind. destruct (IH Hfind) as (? & ? & ?).
      split; [now right|auto].
  - intros Hfind. destruct (IH Hfind) as (? & ? & ?). split; [now right|auto].
Qed.

Lemma moved_none (projectId : string) (s : ProjectStatus) (ps : list Project) :
  List.find (has_id projectId) ps = None -> moved projectId s ps = ps.
Proof.
  induction ps as [|p ps IH]; [reflexivity|].
  simpl. destruct (has_id projectId p); [discriminate|].
  intros Hf. now rewrite IH.
Qed.

Lemma with_status_same (p : Project) : with_status (status p) p = p.
Proof. now destruct p. Qed.

Lemma moved_same (projectId : string) (ps : list Project) (p : Project) :
  List.find (has_id projectId) ps = Some p ->
  moved projectId (status p) ps = ps.
Proof.
  induction ps as [|q ps IH]; [discriminate|].
  simpl. destruct (has_id projectId q).
  - intros [= ->]. now rewrite with_status_same.
  - intros Hf. now rewrite IH.
Qed.

(** The state in which [moveProject] calls [updateListeners]. *)
Lemma write_status_canonical (projectId : string) (s : ProjectStatus)
    (h : Heap) (os : list oref) o p :
  NoDup os ->
  array_find (has_id projectId) h os = Some (o, p) ->
  omap (deref (write_object o (with_status s p) h)) os
    = moved projectId s (omap (deref h) os).
Proof.
  induction os as [|o' os IH]; [discriminate|].
  intros Hnd Hfind. apply NoDup_cons in Hnd as [Hnotin Hnd].
  pose proof (array_find_Some _ _ _ _ _ Hfind) as (_ & Hderef & Hid).
  cbn in Hfind |- *.
  destruct (deref h o') as [q|] eqn:Hq.
  - destruct (has_id projectId q) eqn:Hf.
    + injection Hfind as -> ->.
      unfold deref at 1. simpl.
      rewrite list_lookup_insert_eq by (eapply lookup_lt_Some; exact Hq).
      cbn. rewrite Hf. f_equal.
      apply omap_deref_agree. apply Forall_forall. intros o' Ho'.
      unfold deref. simpl. apply list_lookup_insert_ne. congruence.
    + assert (o <> o') by (intros ->; congruence).
      unfold deref at 1. simpl. rewrite list_lookup_insert_ne by assumption.
      fold (deref h o'). rewrite Hq. cbn. rewrite Hf. f_equal. now apply IH.
  - assert (o <> o') by (intros ->; congruence).
    unfold deref at 1. simpl. rewrite list_lookup_insert_ne by assumption.
    fold (deref h o'). rewrite Hq. now apply IH.
Qed.

Lemma write_status_wf (w : World) o p :
  wf w -> wf (set_heap (write_object o p (heap w)) w).
Proof.
  intros (Hp & Hval & Hnd). unfold wf, read_array. simpl.
  rewrite length_insert. auto.
Qed.

Lemma moved_length (projectId : string) (s : ProjectStatus) (ps : list Project) :
  length (moved projectId s ps) = length ps.
Proof.
  induction ps as [|p ps IH]; [reflexivity|].
  simpl. destruct (has_id projectId p); simpl; [reflexivity|now rewrite IH].
Qed.

Lemma moved_lookup (projectId : string) (s : ProjectStatus) (ps : list Project)
    (i : nat) (p p' : Project) :
  ps !! i = Some p -> moved projectId s ps !! i = Some p' ->
  p' = p \/
  (p' = with_status s p /\ has_id projectId p = true /\
   forall j q, j < i -> ps !! j = Some q -> has_id projectId q = false).
Proof.
  revert i. induction ps as [|q ps IH]; intros i; [discriminate|].
  simpl. destruct (has_id projectId q) eqn:Hq.
  - destruct i as [|i]; simpl.
    + intros [= ->] [= <-]. right. split; [reflexivity|]. split; [exact Hq|].
      intros j q' Hj. lia.
    + intros Hp Hp'. left. congruence.
  - destruct i as [|i]; simpl.
    + intros [= ->] [= <-]. now left.
    + intros Hp Hp'. destruct (IH i Hp Hp') as [->|(-> & Hid & Hfirst)];
        [now left|].
      right. split; [reflexivity|]. split; [exact Hid|].
      intros [|j] q' Hj; simpl; [intros [= <-]; exact Hq|].
      apply Hfirst. lia.
Qed.

Lemma moved_insert (projectId : string) (s : ProjectStatus) (ps : list Project)
    (p : Project) :
  List.find (has_id projectId) ps = Some p ->
  exists i,
    ps !! i = Some p /\
    (forall j q, j < i -> ps !! j = Some q -> id q <> projectId) /\
    moved projectId s ps
      = <[i := mkProject (id p) (title p) (description p) (people p) s]> ps.
Proof.
  induction ps as [|q ps IH]; [discriminate|].
  simpl. destruct (has_id projectId q) eqn:Hq.
  - intros [= ->]. exists 0. split; [reflexivity|]. split; [|reflexivity].
    intros j q' Hj. lia.
  - intros Hfind. destruct (IH Hfind) as (i & Hi & Hfirst & Hmoved).
    exists (S i). split; [exact Hi|]. split.
    + intros [|j] q' Hj; simpl.
      * intros [= <-]. unfold has_id in Hq. now apply String.eqb_neq in Hq.
      * apply Hfirst. lia.
    + simpl. now rewrite Hmoved.
Qed.


End OperationFacts.

Section OperationSpecs.
Context `{JSNumber}.

Lemma moveProject_cases (projectId : string) (newStatus : ProjectStatus) (w : World) :
  match List.find (has_id projectId) (canonical w) with
  | Some p =>
      if ProjectStatus_eqb (status p) newStatus
      then moveProject projectId newStatus w = Returns w
      else exists o,
        array_find (has_id projectId) (heap w)
                   (read_array (projects (projectState w)) (heap w)) = Some (o, p) /\
        moveProject projectId newStatus w
          = updateListeners
              (set_heap (write_object o (with_status newStatus p) (heap w)) w)
  | None => moveProject projectId newStatus w = Returns w
  end.
Proof.
  unfold canonical, items_of. rewrite <- array_find_find.
  unfold moveProject. fold (has_id projectId).
  destruct (array_find _ _ _) as [[o p]|]; simpl; [|reflexivity].
  destruct (ProjectStatus_eqb (status p) newStatus); simpl; [reflexivity|].
  exists o. auto.
Qed.

Lemma ProjectStatus_eqb_eq (a b : ProjectStatus) :
  ProjectStatus_eqb a b = true <-> a = b.
Proof. destruct a, b; simpl; split; congruence. Qed.

Lemma addProject_canonical (t d : string) (n : number) (r : string) (w : World) :
  wf w -> Forall confined (listeners (projectState w)) ->
  let w' := outcome_state (addProject t d n r w) in
  wf w' /\ projectState w' = projectState w /\
  canonical w' = canonical w ++ [mkProject r t d n Active].
Proof.
  intros Hwf Hls w'. subst w'. unfold addProject, new_Project.
  destruct (push_new_canonical w (mkProject r t d n Active) Hwf) as [Hwf0 Hcan0].
  match goal with |- context [updateListeners ?x] => set (w0 := x) in * end.
  assert (Hk : store_kept w0 (outcome_state (updateListeners w0)))
    by (apply updateListeners_kept; assumption).
  split; [eapply store_kept_wf; eauto|].
  split; [now destruct Hk as [-> _]|].
  rewrite (store_kept_canonical _ _ Hwf0 Hk). exact Hcan0.
Qed.

Lemma moveProject_canonical (projectId : string) (s : ProjectStatus) (w : World) :
  wf w -> Forall confined (listeners (projectState w)) ->
  let w' := outcome_state (moveProject projectId s w) in
  wf w' /\ projectState w' = projectState w /\
  read_array (projects (projectState w')) (heap w')
    = read_array (projects (projectState w)) (heap w) /\
  canonical w' = moved projectId s (canonical w).
Proof.
  intros Hwf Hls w'. subst w'.
  pose proof (moveProject_cases projectId s w) as Hcases.
  destruct (List.find (has_id projectId) (canonical w)) as [p|] eqn:Hfind.
  - destruct (ProjectStatus_eqb (status p) s) eqn:Hst.
    + rewrite Hcases. simpl. apply ProjectStatus_eqb_eq in Hst. subst s.
      rewrite (moved_same _ _ _ Hfind). auto.
    + destruct Hcases as (o & Hfound & ->).
      set (w0 := set_heap (write_object o (with_status s p) (heap w)) w).
      assert (Hwf0 : wf w0) by now apply write_status_wf.
      assert (Hk : store_kept w0 (outcome_state (updateListeners w0)))
        by (apply updateListeners_kept; assumption).
      split; [eapply store_kept_wf; eauto|].
      split; [now destruct Hk as [-> _]|].
      split; [now rewrite (store_kept_read _ _ Hk)|].
      rewrite (store_kept_canonical _ _ Hwf0 Hk).
      unfold canonical, items_of. subst w0. simpl.
      change (read_array (projects (projectState w))
                         (write_object o (with_status s p) (heap w)))
        with (read_array (projects (projectState w)) (heap w)).
      apply write_status_canonical; [apply Hwf|exact Hfound].
  - rewrite Hcases. simpl. rewrite (moved_none _ _ _ Hfind). auto.
Qed.

Lemma step_canonical (op : Op) (w : World) :
  wf w -> Forall confined (listeners (projectState w)) -> confined_op op ->
  wf (step op w) /\
  Forall confined (listeners (projectState (step op w))) /\
  canonical (step op w) = op_effect op (canonical w).
Proof.
  intros Hwf Hls Hop. destruct op as [l|t d n r|i s]; simpl.
  - split; [exact Hwf|]. split; [|reflexivity].
    apply Forall_app. split; [exact Hls|]. now constructor.
  - destruct (addProject_canonical t d n r w Hwf Hls) as (? & Hs & ?).
    split; [assumption|]. split; [now rewrite Hs|assumption].
  - destruct (moveProject_canonical i s w Hwf Hls) as (? & Hs & _ & ?).
    split; [assumption|]. split; [now rewrite Hs|assumption].
Qed.

Lemma run_canonical (ops : list Op) (w : World) :
  wf w -> Forall confined (listeners (projectState w)) ->
  Forall confined_op ops ->
  wf (run ops w) /\
  Forall confined (listeners (projectState (run ops w))) /\
  canonical (run ops w)
    = fold_left (fun ps op => op_effect op ps) ops (canonical w).
Proof.
  revert w. induction ops as [|op ops IH]; intros w Hwf Hls Hops; [auto|].
  apply Forall_cons in Hops as [Hop Hops].
  destruct (step_canonical op w Hwf Hls Hop) as (Hwf1 & Hls1 & Hcan1).
  unfold run. simpl. fold (run ops (step op w)).
  destruct (IH (step op w) Hwf1 Hls1 Hops) as (? & ? & Hcan).
  split; [assumption|]. split; [assumption|]. now rewrite Hcan, Hcan1.
Qed.

(** The listeners of the program, and the listeners of the examples. *)
Lemma ProjectList_listener_confined (type : ListType) :
  confined (ProjectList_listener type).
Proof.
  intros a h Ha. unfold ProjectList_listener, new_array. simpl.
  unfold heap_grows_around. simpl. split; [reflexivity|].
  rewrite length_app. split; [lia|].
  intros b _ Hb. now apply lookup_app_l.
Qed.

Lemma ProjectList_listener_total (type : ListType) :
  total (ProjectList_listener type).
Proof. intros a h. reflexivity. Qed.

Lemma array_mutator_confined (f : list oref -> list oref) :
  confined (array_mutator f).
Proof.
  intros a h Ha. unfold array_mutator, write_array, heap_grows_around. simpl.
  split; [reflexivity|]. rewrite length_insert. split; [lia|].
  intros b Hb _. now apply list_lookup_insert_ne.
Qed.

Lemma thrower_confined : confined thrower.
Proof.
  intros a h Ha. unfold thrower, heap_grows_around. simpl.
  split; [reflexivity|]. split; [lia|]. auto.
Qed.

Lemma initial_world_wf : wf initial_world.
Proof.
  unfold wf. simpl. split; [lia|]. split; [constructor|]. apply NoDup_nil_2.
Qed.

Lemma initial_world_confined :
  Forall confined (listeners (projectState initial_world)).
Proof.
  simpl. repeat (constructor; [apply ProjectList_listener_confined|]).
  constructor.
Qed.

End OperationSpecs.

(** ** Creating and moving projects *)

(** C7. From every well-formed state, [addProject] builds a project whose
    status is Active and enters [updateListeners] once, at a moment when
    the canonical list is already the previous list followed by the new
    project.  When the listeners write to nothing but the arrays they are
    given, that is also the list the call leaves behind, so every project
    that was there keeps its position. *)
Theorem addProject_appends_and_notifies_once
    (N : JSNumber) (t d : string) (n : number) (r : string) (w : World) :
  wf w ->
  let new := mkProject r t d n Active in
  let w' := outcome_state (addProject t d n r w) in
  status new = Active /\
  (exists evs,
     log w' = log w ++ EvNotify (canonical w ++ [new]) :: evs /\
     notifications evs = 0) /\
  notifications (log w') = notifications (log w) + 1 /\
  (Forall confined (listeners (projectState w)) ->
     canonical w' = canonical w ++ [new] /\
     forall i p, canonical w !! i = Some p -> canonical w' !! i = Some p).
Proof.
  intros Hwf new w'. split; [reflexivity|].
  destruct (push_new_canonical w new Hwf) as [Hwf0 Hcan0].
  assert (Hev : exists evs,
     log w' = log w ++ EvNotify (canonical w ++ [new]) :: evs /\
     notifications evs = 0).
  { subst w'. unfold addProject, new_Project.
    match goal with |- context [updateListeners ?x] => set (w0 := x) in * end.
    destruct (updateListeners_events w0) as (evs & Hlog & Hn).
    exists evs. split; [|exact Hn]. rewrite Hlog.
    replace (canonical w0) with (canonical w ++ [new])
      by (symmetry; exact Hcan0).
    reflexivity. }
  split; [exact Hev|]. split.
  - destruct Hev as (evs & -> & Hn).
    rewrite notifications_app. change (EvNotify (canonical w ++ [new]) :: evs)
      with ([EvNotify (canonical w ++ [new])] ++ evs).
    rewrite notifications_app, Hn. reflexivity.
  - intros Hls.
    destruct (addProject_canonical t d n r w Hwf Hls) as (_ & _ & Hcan).
    split; [exact Hcan|]. intros i p Hp. fold w' in Hcan. rewrite Hcan.
    now apply lookup_app_l_Some.
Qed.


(** C10. From every well-formed state whose listeners write to nothing but
    the arrays they are given, [moveProject] leaves the store's array with
    the same references in the same order, hence as many projects, each
    with the id, title, description and number of people it had; a project
    that differs afterwards is the first one of the given id, it now has
    the new status, and no other project differs. *)
Theorem moveProject_changes_one_status_only
    (N : JSNumber) (projectId : string) (newStatus : ProjectStatus) (w : World) :
  wf w -> Forall confined (listeners (projectState w)) ->
  let w' := outcome_state (moveProject projectId newStatus w) in
  read_array (projects (projectState w')) (heap w')
    = read_array (projects (projectState w)) (heap w) /\
  length (canonical w') = length (canonical w) /\
  (forall i p, canonical w !! i = Some p ->
     exists p', canonical w' !! i = Some p' /\
       id p' = id p /\ title p' = title p /\
       description p' = description p /\ people p' = people p /\
       (p' <> p ->
          id p = projectId /\ status p' = newStatus /\
          forall j q, j < i -> canonical w !! j = Some q -> id q <> projectId)) /\
  (forall i j p q, canonical w !! i = Some p -> canonical w !! j = Some q ->
     canonical w' !! i <> Some p -> canonical w' !! j <> Some q -> i = j).
Proof.
  intros Hwf Hls w'.
  destruct (moveProject_canonical projectId newStatus w Hwf Hls)
    as (_ & _ & Hread & Hcan).
  fold w' in Hread, Hcan.
  assert (Hlen : length (canonical w') = length (canonical w))
    by (rewrite Hcan; apply moved_length).
  assert (Hone : forall i p, canonical w !! i = Some p ->
     exists p', canonical w' !! i = Some p' /\
       (p' = p \/
        (p' = with_status newStatus p /\ has_id projectId p = true /\
         forall j q, j < i -> canonical w !! j = Some q ->
                     has_id projectId q = false))).
  { intros i p Hp.
    destruct (lookup_lt_is_Some_2 (canonical w') i) as [p' Hp'].
    { rewrite Hlen. eapply lookup_lt_Some. exact Hp. }
    exists p'. split; [exact Hp'|]. rewrite Hcan in Hp'.
    exact (moved_lookup _ _ _ _ _ _ Hp Hp'). }
  split; [exact Hread|]. split; [exact Hlen|]. split.
  - intros i p Hp. destruct (Hone i p Hp) as (p' & Hp' & Hcase).
    exists p'. split; [exact Hp'|].
    destruct Hcase as [->|(-> & Hid & Hfirst)].
    + do 4 (split; [reflexivity|]). intros Hne. now destruct Hne.
    + do 4 (split; [reflexivity|]). intros _.
      split; [now apply String.eqb_eq in Hid|]. split; [reflexivity|].
      intros j q Hj Hq Heq. specialize (Hfirst j q Hj Hq).
      unfold has_id in Hfirst. apply String.eqb_neq in Hfirst. contradiction.
  - intros i j p q Hp Hq Hi Hj.
    destruct (Hone i p Hp) as (p' & Hp' & [->|(_ & Hidp & Hfirstp)]);
      [contradiction|].
    destruct (Hone j q Hq) as (q' & Hq' & [->|(_ & Hidq & Hfirstq)]);
      [contradiction|].
    destruct (Nat.lt_trichotomy i j) as [Hlt|[Heq|Hgt]]; [|exact Heq|].
    + specialize (Hfirstq i p Hlt Hp). congruence.
    + specialize (Hfirstp j q Hgt Hq). congruence.
Qed.

(** ** Runs of operations *)

Section RunFacts.
Context `{JSNumber}.

Lemma op_effect_lookup (op : Op) (ps : list Project) (i : nat) (p : Project) :
  ps !! i = Some p ->
  exists p', op_effect op ps !! i = Some p' /\
    (p' = p \/ exists s, op = OpMoveProject (id p) s /\ p' = with_status s p).
Proof.
  intros Hp. destruct op as [l|t d n r|pid s]; simpl.
  - exists p. auto.
  - exists p. split; [now apply lookup_app_l_Some|now left].
  - destruct (lookup_lt_is_Some_2 (moved pid s ps) i) as [p' Hp'].
    { rewrite moved_length. eapply lookup_lt_Some. exact Hp. }
    exists p'. split; [exact Hp'|].
    destruct (moved_lookup _ _ _ _ _ _ Hp Hp') as [->|(-> & Hid & _)];
      [now left|].
    right. exists s. apply String.eqb_eq in Hid. now rewrite Hid.
Qed.

Lemma effects_lookup (ops : list Op) (ps : list Project) (i : nat) (p : Project) :
  ps !! i = Some p ->
  exists p', fold_left (fun ps op => op_effect op ps) ops ps !! i = Some p' /\
    id p' = id p /\ title p' = title p /\
    description p' = description p /\ people p' = people p /\
    (status p' <> status p -> In (OpMoveProject (id p) (status p')) ops).
Proof.
  revert ps p. induction ops as [|op ops IH]; intros ps p Hp.
  - exists p. simpl. split; [exact Hp|]. repeat split; try reflexivity.
    intros Hne. now destruct Hne.
  - destruct (op_effect_lookup op ps i p Hp) as (p1 & Hp1 & Hcase).
    destruct (IH _ _ Hp1) as (p' & Hp' & Hi & Ht & Hd & Hn & Hs).
    exists p'. simpl. split; [exact Hp'|].
    destruct Hcase as [->|(s & -> & ->)].
    + do 4 (split; [assumption|]). intros Hne. right. auto.
    + simpl in *. do 4 (split; [assumption|]). intros Hne.
      destruct (ProjectStatus_eqb (status p') s) eqn:Heq.
      * apply ProjectStatus_eqb_eq in Heq. rewrite Heq. now left.
      * right. apply Hs. intros Hc. apply ProjectStatus_eqb_eq in Hc. congruence.
Qed.

Lemma draws_cons (op : Op) (ops : list Op) :
  draws (op :: ops) = draws [op] ++ draws ops.
Proof. unfold draws. cbn. destruct op; reflexivity. Qed.


End RunFacts.

(** C8. Along every run of store operations from a well-formed state, with
    listeners that write to nothing but the arrays they are given, a
    project keeps its position, id, title, description and number of
    people; when its status at the end differs from the one it had, the
    run contains a move with its id and that status.  A project created
    by the first operation of a run carries the arguments of its creation
    to the end, and is Active unless such a move occurs. *)
Theorem fields_fixed_status_only_by_move
    (N : JSNumber) (ops : list Op) (w : World) :
  wf w -> Forall confined (listeners (projectState w)) ->
  Forall confined_op ops ->
  (forall i p, canonical w !! i = Some p ->
     exists p', canonical (run ops w) !! i = Some p' /\
       id p' = id p /\ title p' = title p /\
       description p' = description p /\ people p' = people p /\
       (status p' <> status p -> In (OpMoveProject (id p) (status p')) ops)) /\
  (forall t d n r,
     exists p', canonical (run (OpAddProject t d n r :: ops) w)
                  !! length (canonical w) = Some p' /\
       id p' = r /\ title p' = t /\ description p' = d /\ people p' = n /\
       (status p' <> Active -> In (OpMoveProject r (status p')) ops)).
Proof.
  intros Hwf Hls Hops. split.
  - intros i p Hp.
    destruct (run_canonical ops w Hwf Hls Hops) as (_ & _ & ->).
    now apply effects_lookup.
  - intros t d n r.
    assert (Hops' : Forall confined_op (OpAddProject t d n r :: ops))
      by (constructor; [exact I|exact Hops]).
    destruct (run_canonical _ w Hwf Hls Hops') as (_ & _ & ->).
    simpl.
    apply (effects_lookup ops _ (length (canonical w)) (mkProject r t d n Active)).
    now apply list_lookup_middle.
Qed.



(** ** Order of the notifications *)

Section OrderFacts.
Context `{JSNumber}.

Lemma notify_from_app (k : nat) (ls1 ls2 : list Listener) (w : World) :
  notify_from k (ls1 ++ ls2) w
    = match notify_from k ls1 w with
      | Returns w1 => notify_from (k + length ls1) ls2 w1
      | Throws w1 => Throws w1
      end.
Proof.
  revert k w. induction ls1 as [|l ls1 IH]; intros k w.
  - cbn. now rewrite Nat.add_0_r.
  - cbn [app notify_from length].
    destruct (slice (projects (projectState w)) (heap w)) as [a h1].
    destruct (l a h1) as [h2|h2]; [|reflexivity].
    rewrite IH. now replace (S k + length ls1) with (k + S (length ls1)) by lia.
Qed.

(** The loop reads the array of the store, the heap and the log; the list
    of listeners kept in the store passes through it. *)
Lemma notify_from_listeners (k : nat) (ls : list Listener) (w : World)
    (st' : ProjectState) :
  projects st' = projects (projectState w) ->
  notify_from k ls (mkWorld (heap w) st' (log w))
    = match notify_from k ls w with
      | Returns w1 => Returns (mkWorld (heap w1) st' (log w1))
      | Throws w1 => Throws (mkWorld (heap w1) st' (log w1))
      end.
Proof.
  revert k w. induction ls as [|l ls IH]; intros k w Hst; [reflexivity|].
  cbn [notify_from heap projectState log]. rewrite Hst.
  destruct (slice (projects (projectState w)) (heap w)) as [a h1].
  destruct (l a h1) as [h2|h2]; [|reflexivity].
  apply (IH (S k) (log_event (EvComplete k)
                     (set_heap h2 (log_event (EvInvoke k a (items_of a h1))
                                             (set_heap h1 w))))).
  exact Hst.
Qed.

Lemma notify_from_state (k : nat) (ls : list Listener) (w : World) :
  projectState (outcome_state (notify_from k ls w)) = projectState w.
Proof.
  revert k w. induction ls as [|l ls IH]; intros k w; [reflexivity|].
  cbn [notify_from].
  destruct (slice (projects (projectState w)) (heap w)) as [a h1].
  destruct (l a h1) as [h2|h2]; [|reflexivity].
  now rewrite IH.
Qed.

Lemma updateListeners_addListener (B : Listener) (w : World) :
  match updateListeners w with
  | Returns w1 =>
      updateListeners (addListener B w)
        = called_last B (length (listeners (projectState w))) w1
  | Throws w1 => updateListeners (addListener B w) = Throws (addListener B w1)
  end.
Proof.
  unfold updateListeners.
  set (w0 := log_event (EvNotify (canonical w)) w).
  change (notify_from 0 (listeners (projectState (addListener B w)))
            (log_event (EvNotify (canonical (addListener B w))) (addListener B w)))
    with (notify_from 0 (listeners (projectState w) ++ [B])
            (mkWorld (heap w0) (projectState (addListener B w)) (log w0))).
  rewrite notify_from_app, notify_from_listeners by reflexivity.
  pose proof (notify_from_state 0 (listeners (projectState w)) w0) as Hst.
  destruct (notify_from 0 (listeners (projectState w)) w0) as [w1|w1];
    cbn [outcome_state] in Hst; change (projectState w0) with (projectState w) in Hst.
  - unfold called_last, addListener. rewrite Hst.
    cbn [notify_from heap projectState log Nat.add projects].
    destruct (slice (projects (projectState w)) (heap w1)) as [a h1].
    destruct (B a h1) as [h2|h2]; unfold log_event, set_heap;
      cbn [heap projectState log]; [|reflexivity].
    now rewrite <- app_assoc.
  - unfold addListener. now rewrite Hst.
Qed.

(** An operation that changes the list of the state [w]. *)
Lemma changing_op_addListener (op : World -> Outcome World) (w : World)
    (B : Listener) :
  (exists t d n rnd, op = addProject t d n rnd) \/
  (exists projectId s p,
     op = moveProject projectId s /\
     List.find (has_id projectId) (canonical w) = Some p /\ status p <> s) ->
  match op w with
  | Returns w1 =>
      op (addListener B w) = called_last B (length (listeners (projectState w))) w1
  | Throws w1 => op (addListener B w) = Throws (addListener B w1)
  end.
Proof.
  intros [(t & d & n & rnd & ->)|(projectId & s & p & -> & Hfind & Hst)].
  - unfold addProject, new_Project.
    match goal with |- context [updateListeners ?x] => set (w0 := x) end.
    exact (updateListeners_addListener B w0).
  - pose proof (moveProject_cases projectId s w) as Hw.
    pose proof (moveProject_cases projectId s (addListener B w)) as HB.
    change (canonical (addListener B w)) with (canonical w) in HB.
    rewrite Hfind in Hw, HB.
    destruct (ProjectStatus_eqb (status p) s) eqn:Heq;
      [apply ProjectStatus_eqb_eq in Heq; contradiction|].
    destruct Hw as (o & Hfound & ->). destruct HB as (o' & Hfound' & ->).
    change (array_find (has_id projectId) (heap (addListener B w))
              (read_array (projects (projectState (addListener B w)))
                          (heap (addListener B w))))
      with (array_find (has_id projectId) (heap w)
              (read_array (projects (projectState w)) (heap w))) in Hfound'.
    rewrite Hfound in Hfound'. injection Hfound' as <-.
    exact (updateListeners_addListener B
             (set_heap (write_object o (with_status s p) (heap w)) w)).
Qed.

End OrderFacts.

(** C6. A creation, or a move that changes a status, from a well-formed
    state brings the store to a new list [P], different from the old one,
    and adds to the log exactly: the entry of [updateListeners] on [P],
    then for each listener in subscription order its call followed by its
    completion.  So a listener starts only after every listener subscribed
    before it has completed, and the call returns only after the last one
    completed.  An exception leaves the call only when a listener throws,
    the listeners subscribed after that one not being called; the call
    does return when no listener throws.  When the listeners write to
    nothing but the arrays they are given, each of them is called with an
    array holding [P], and [P] is the list the call leaves behind.
    Subscription order is the order of the calls of [addListener], which
    appends: for listeners [A] then [B] subscribed after those of the
    state, the same operation is what it was, followed by the call of [A]
    on the heap the others left and with a new copy of the store's array,
    followed, if [A] returns, by the call of [B] on the heap [A] left and
    with another new copy; [B] is not called if [A] throws, and neither is
    called if a listener before them throws. *)
Theorem listeners_called_in_subscription_order
    (N : JSNumber) (w : World) (op : World -> Outcome World) (P : list Project) :
  wf w ->
  (exists t d n rnd,
     op = addProject t d n rnd /\
     P = canonical w ++ [mkProject rnd t d n Active]) \/
  (exists projectId s p,
     op = moveProject projectId s /\
     List.find (has_id projectId) (canonical w) = Some p /\ status p <> s /\
     P = moved projectId s (canonical w)) ->
  let r := op w in
  let ls := listeners (projectState w) in
  (exists ds,
    match r with
    | Returns w' =>
        length ds = length ls /\
        log w' = log w ++ EvNotify P :: calls 0 ds
    | Throws w' =>
        length ds < length ls /\
        exists a items,
          log w' = log w ++ EvNotify P :: calls 0 ds
                         ++ [EvInvoke (length ds) a items] /\
          (Forall confined ls -> items = P)
    end /\
    (Forall total ls -> returned r = true) /\
    (Forall confined ls ->
       Forall (fun d => snd d = P) ds /\ canonical (outcome_state r) = P) /\
    (forall A B,
       listeners (projectState (addListener B (addListener A w))) = ls ++ [A; B])) /\
  P <> canonical w /\
  (forall A B,
     match r with
     | Returns w1 =>
         op (addListener A w) = called_last A (length ls) w1 /\
         match called_last A (length ls) w1 with
         | Returns wA =>
             op (addListener B (addListener A w))
               = called_last B (S (length ls)) wA
         | Throws wA =>
             op (addListener B (addListener A w)) = Throws (addListener B wA)
         end
     | Throws w1 =>
         op (addListener A w) = Throws (addListener A w1) /\
         op (addListener B (addListener A w))
           = Throws (addListener B (addListener A w1))
     end).
Proof.
  intros Hwf Hop r ls.
  assert (Hchanging : forall w2, canonical w2 = canonical w ->
    (exists t d n rnd, op = addProject t d n rnd) \/
    (exists projectId s p,
       op = moveProject projectId s /\
       List.find (has_id projectId) (canonical w2) = Some p /\ status p <> s)).
  { intros w2 ->.
    destruct Hop as [(t & d & n & rnd & -> & _)
                    |(projectId & s & p & -> & Hfind & Hst & _)].
    - left. eauto.
    - right. exists projectId, s, p. auto. }
  assert (Hnew : P <> canonical w).
  { destruct Hop as [(t & d & n & rnd & _ & ->)
                    |(projectId & s & p & _ & Hfind & Hst & ->)].
    - intros Heq. apply (f_equal length) in Heq.
      rewrite length_app in Heq. cbn in Heq. lia.
    - destruct (moved_insert projectId s (canonical w) p Hfind)
        as (i & Hi & _ & Hmoved).
      intros Heq. rewrite Hmoved in Heq.
      apply (f_equal (fun l => l !! i)) in Heq.
      rewrite list_lookup_insert_eq, Hi in Heq
        by (eapply lookup_lt_Some; exact Hi).
      injection Heq as Heq. apply Hst. now rewrite <- Heq. }
  assert (Hw0 : exists w0,
    r = updateListeners w0 /\ wf w0 /\ canonical w0 = P /\
    projectState w0 = projectState w /\ log w0 = log w).
  { subst r.
    destruct Hop as [(t & d & n & rnd & -> & ->)
                    |(projectId & s & p & -> & Hfind & Hst & ->)].
    - destruct (push_new_canonical w (mkProject rnd t d n Active) Hwf)
        as [Hwf0 Hcan0].
      eexists. split; [reflexivity|]. auto.
    - pose proof (moveProject_cases projectId s w) as Hcases.
      rewrite Hfind in Hcases.
      destruct (ProjectStatus_eqb (status p) s) eqn:Heq;
        [apply ProjectStatus_eqb_eq in Heq; contradiction|].
      destruct Hcases as (o & Hfound & Hr).
      eexists. split; [exact Hr|].
      split; [now apply write_status_wf|]. split; [|auto].
      unfold canonical, items_of. simpl.
      change (read_array (projects (projectState w))
                         (write_object o (with_status s p) (heap w)))
        with (read_array (projects (projectState w)) (heap w)).
      apply write_status_canonical; [apply Hwf|exact Hfound]. }
  split; [|split; [exact Hnew|]].
  - destruct Hw0 as (w0 & Hr & Hwf0 & Hcan0 & Hst0 & Hlog0).
    rewrite Hr. subst ls. rewrite <- Hst0.
    destruct (updateListeners_log w0) as (ds & Hlog & Hds).
    exists ds. rewrite <- Hlog0, <- Hcan0. split; [|split; [|split]].
    + destruct (updateListeners w0) as [w'|w']; [exact Hlog|].
      destruct Hlog as [Hlen (a & items & Hlog & Hitems)]. split; [exact Hlen|].
      exists a, items. auto.
    + apply updateListeners_total.
    + intros Hls. split.
      * eapply Forall_impl; [exact (Hds Hwf0 Hls)|]. now intros d [_ Hd].
      * apply store_kept_canonical; [exact Hwf0|].
        now apply updateListeners_kept.
    + intros A B. rewrite Hst0. simpl. now rewrite <- app_assoc.
  - intros A B.
    pose proof (changing_op_addListener op w A (Hchanging w eq_refl)) as HA.
    pose proof (changing_op_addListener op (addListener A w) B
                  (Hchanging (addListener A w) eq_refl)) as HB.
    fold r in HA. subst ls.
    change (length (listeners (projectState (addListener A w))))
      with (length (listeners (projectState w) ++ [A])) in HB.
    rewrite length_app, Nat.add_1_r in HB.
    destruct r as [w1|w1].
    + split; [exact HA|]. rewrite HA in HB. exact HB.
    + split; [exact HA|]. rewrite HA in HB. exact HB.
Qed.

(** ** Arrays handed to the listeners *)

(** C3 fails as stated: a listener that writes [items[0].title] changes
    the project of the store's own list, and the project seen through the
    array that another listener was given before. *)
Lemma title_written_through_snapshot :
  let w' := outcome_state (updateListeners title_writer_world) in
  title <$> canonical title_writer_world = ["Build shed"] /\
  nth_error (log w') 6
    = Some (EvInvoke 0 5 [mkProject "0.5" "Build shed" "Outdoor storage"
                                    (IInt 2) Active]) /\
  title <$> canonical w' = ["Changed"] /\
  title <$> items_of 5 (heap w') = ["Changed"] /\
  canonical w' <> canonical title_writer_world.
Proof.
  intros w'. subst w'.
  split; [vm_compute; reflexivity|]. split; [vm_compute; reflexivity|].
  split; [vm_compute; reflexivity|]. split; [vm_compute; reflexivity|].
  intros Heq. apply (f_equal (fmap title)) in Heq. vm_compute in Heq.
  discriminate.
Qed.

(** ** The program as started *)

(** Every state the program reaches by creations and moves is well formed
    and has the two listeners of the lists, which write to no object and
    to no array but their own. *)
Lemma program_states_well_formed (ops : list Op) :
  Forall (fun op => match op with OpAddListener _ => False | _ => True end) ops ->
  wf (run ops initial_world) /\
  Forall confined (listeners (projectState (run ops initial_world))) /\
  canonical (run ops initial_world)
    = fold_left (fun ps op => op_effect op ps) ops [].
Proof.
  intros Hops.
  apply (run_canonical (H := IntNumber) ops initial_world
           initial_world_wf initial_world_confined).
  eapply Forall_impl; [exact Hops|]. intros [l|t d n r|i s]; simpl; tauto.
Qed.

(** A listener that throws, subscribed between the two lists: the project
    is created, the first list is called and completes, the thrower is
    called, the second list is not, and the exception leaves [addProject]. *)
Lemma thrower_stops_notification :
  let new := mkProject "0.5" "Build shed" "Outdoor storage" (IInt 2) Active in
  let r := addProject "Build shed" "Outdoor storage" (IInt 2) "0.5" thrower_world in
  returned r = false /\
  canonical (outcome_state r) = [new] /\
  log (outcome_state r)
    = [EvNotify [new]; EvInvoke 0 1 [new]; EvComplete 0; EvInvoke 1 3 [new]].
Proof. repeat split; vm_compute; reflexivity. Qed.

(** ** The statements at the example session *)

Lemma shed_world_wf : wf shed_world.
Proof.
  exact (proj1 (addProject_canonical (H := IntNumber)
                  "Build shed" "Outdoor storage" (IInt 2) "0.5"
                  initial_world initial_world_wf initial_world_confined)).
Qed.

Lemma shed_world_confined : Forall confined (listeners (projectState shed_world)).
Proof.
  destruct (addProject_canonical (H := IntNumber)
              "Build shed" "Outdoor storage" (IInt 2) "0.5"
              initial_world initial_world_wf initial_world_confined)
    as (_ & Hst & _).
  unfold shed_world. rewrite Hst. exact initial_world_confined.
Qed.

Lemma shed_world_total : Forall total (listeners (projectState shed_world)).
Proof.
  destruct (addProject_canonical (H := IntNumber)
              "Build shed" "Outdoor storage" (IInt 2) "0.5"
              initial_world initial_world_wf initial_world_confined)
    as (_ & Hst & _).
  unfold shed_world. rewrite Hst. simpl.
  repeat (constructor; [apply ProjectList_listener_total|]). constructor.
Qed.

Lemma shed_world_canonical :
  canonical shed_world
    = [mkProject "0.5" "Build shed" "Outdoor storage" (IInt 2) Active].
Proof. vm_compute. reflexivity. Qed.

Lemma shed_world_listeners :
  length (listeners (projectState shed_world)) = 2.
Proof.
  destruct (addProject_canonical (H := IntNumber)
              "Build shed" "Outdoor storage" (IInt 2) "0.5"
              initial_world initial_world_wf initial_world_confined)
    as (_ & Hst & _).
  unfold shed_world. rewrite Hst. reflexivity.
Qed.

Lemma shed_session_confined : Forall confined_op shed_session.
Proof. repeat constructor. Qed.

Lemma addProject_appends_witness :
  wf shed_world /\
  let w' := outcome_state
              (addProject "Paint fence" "Front garden" (IInt 3) "0.25" shed_world) in
  notifications (log w') = notifications (log shed_world) + 1 /\
  canonical w'
    = canonical shed_world
      ++ [mkProject "0.25" "Paint fence" "Front garden" (IInt 3) Active].
Proof.
  split; [exact shed_world_wf|].
  destruct (addProject_appends_and_notifies_once IntNumber
              "Paint fence" "Front garden" (IInt 3) "0.25" shed_world shed_world_wf)
    as (_ & _ & Hcount & Hfinal).
  split; [exact Hcount|]. exact (proj1 (Hfinal shed_world_confined)).
Defined.


Lemma moveProject_changes_one_status_witness :
  wf shed_world /\
  Forall confined (listeners (projectState shed_world)) /\
  let w' := outcome_state (moveProject "0.5" Finished shed_world) in
  read_array (projects (projectState w')) (heap w')
    = read_array (projects (projectState shed_world)) (heap shed_world) /\
  length (canonical w') = length (canonical shed_world).
Proof.
  split; [exact shed_world_wf|]. split; [exact shed_world_confined|].
  destruct (moveProject_changes_one_status_only IntNumber "0.5" Finished
              shed_world shed_world_wf shed_world_confined)
    as (Hread & Hlen & _).
  split; [exact Hread|exact Hlen].
Defined.

Lemma fields_fixed_witness :
  wf initial_world /\
  Forall confined (listeners (projectState initial_world)) /\
  Forall confined_op (tail shed_session) /\
  exists p',
    canonical (run shed_session initial_world) !! 0 = Some p' /\
    id p' = "0.5" /\ title p' = "Build shed" /\
    description p' = "Outdoor storage" /\ people p' = IInt 2.
Proof.
  split; [exact initial_world_wf|]. split; [exact initial_world_confined|].
  assert (Hops : Forall confined_op (tail shed_session)) by (repeat constructor).
  split; [exact Hops|].
  destruct (fields_fixed_status_only_by_move IntNumber (tail shed_session)
              initial_world initial_world_wf initial_world_confined Hops)
    as [_ Hnew].
  destruct (Hnew "Build shed" "Outdoor storage" (IInt 2) "0.5")
    as (p' & Hp' & Hi & Ht & Hd & Hn & _).
  exists p'. auto.
Defined.


Lemma listeners_order_witness :
  wf shed_world /\
  let new := mkProject "0.25" "Paint fence" "Front garden" (IInt 3) Active in
  let op := addProject "Paint fence" "Front garden" (IInt 3) "0.25" in
  returned (op shed_world) = true /\
  canonical (outcome_state (op shed_world)) = canonical shed_world ++ [new] /\
  op (addListener (title_writer "A") shed_world)
    = called_last (title_writer "A") 2 (outcome_state (op shed_world)).
Proof.
  split; [exact shed_world_wf|].
  destruct (listeners_called_in_subscription_order IntNumber shed_world
              (addProject (H := IntNumber)
                          "Paint fence" "Front garden" (IInt 3) "0.25")
              (canonical shed_world
               ++ [mkProject (H := IntNumber)
                             "0.25" "Paint fence" "Front garden" (IInt 3) Active])
              shed_world_wf)
    as ((ds & _ & Hret & Hcan & _) & _ & Hlast).
  { left. exists "Paint fence", "Front garden", (IInt 3), "0.25". auto. }
  specialize (Hret shed_world_total).
  split; [exact Hret|].
  split; [exact (proj2 (Hcan shed_world_confined))|].
  specialize (Hlast (title_writer "A") (title_writer "B")).
  rewrite shed_world_listeners in Hlast.
  revert Hret Hlast. cbv zeta.
  destruct (addProject (H := IntNumber)
                       "Paint fence" "Front garden" (IInt 3) "0.25" shed_world)
    as [w1|w1]; intros Hret Hlast; [|discriminate].
  exact (proj1 Hlast).
Defined.

(** * More of the program *)

(** ** Submitting the form *)

(** X1. [submitHandler] abandons the submission, that is, it returns with
    the form as it was typed, the heap and the store untouched and one
    alert raised, exactly when the title, the description and the number
    of people are all three refused by [validateInput]. *)
Theorem submit_abandoned_iff_all_refused
    (N : JSNumber) (this : ProjectInput) (random : string) (w : World) :
  submitHandler this random w
    = Returns (this, log_event (EvAlert "Input is invalid. Please try again.") w)
  <->
  validateInput (mkValidatable (VStr (titleInputElement this))
                               (Some true) None None None None) = false /\
  validateInput (mkValidatable (VStr (descInputElement this))
                               (Some true) (Some (num_of_nat 5)) None None None) = false /\
  validateInput (mkValidatable (VNum (toNumber (peopleInputElement this)))
                               (Some true) None None
                               (Some (num_of_nat 1)) (Some (num_of_nat 5))) = false.
Proof.
  rewrite <- (getUserInput_abandons_iff this w).
  unfold submitHandler, getUserInput.
  destruct (negb _ && negb _ && negb _) eqn:Hcond; simpl.
  - split; reflexivity.
  - split; [|discriminate]. intros Hsub. exfalso.
    match type of Hsub with
    | context [addProject ?t ?d ?n ?r ?w0] =>
        destruct (updateListeners_events
                    (set_heap (push (projects (projectState w0))
                                    (length (objects (heap w0)))
                                    (mkHeap (objects (heap w0)
                                             ++ [mkProject r t d n Active])
                                            (arrays (heap w0)))) w0))
          as (evs & Hlog & _);
        change (updateListeners _) with (addProject t d n r w0) in Hlog;
        destruct (addProject t d n r w0) as [w2|w2]; [|discriminate]
    end.
    injection Hsub as _ Hw2. rewrite Hw2 in Hlog. simpl in Hlog.
    apply app_inv_head in Hlog. discriminate.
Qed.

(** X2. When at least one of the three fields is accepted by
    [validateInput], [submitHandler] on a well-formed state enters
    [updateListeners] once and raises no alert; with listeners that write
    to nothing but the arrays they are given, the list becomes the
    previous one followed by an Active project made of the title and the
    description as typed, of [Number] of the text typed for the people
    and of the id drawn.  The form is cleared when the call returns, and
    left as typed when a listener throws. *)
Theorem submit_accepted_creates_project
    (N : JSNumber) (this : ProjectInput) (random : string) (w : World) :
  wf w ->
  validateInput (mkValidatable (VStr (titleInputElement this))
                               (Some true) None None None None) = true \/
  validateInput (mkValidatable (VStr (descInputElement this))
                               (Some true) (Some (num_of_nat 5)) None None None) = true \/
  validateInput (mkValidatable (VNum (toNumber (peopleInputElement this)))
                               (Some true) None None
                               (Some (num_of_nat 1)) (Some (num_of_nat 5))) = true ->
  let r := submitHandler this random w in
  let w' := snd (outcome_state r) in
  let new := mkProject random (titleInputElement this) (descInputElement this)
                       (toNumber (peopleInputElement this)) Active in
  (exists evs, log w' = log w ++ EvNotify (canonical w ++ [new]) :: evs /\
               notifications evs = 0 /\
               List.existsb (fun e => match e with EvAlert _ => true | _ => false end)
                            evs = false) /\
  fst (outcome_state r)
    = (if returned r then mkProjectInput "" "" "" else this) /\
  (Forall total (listeners (projectState w)) -> returned r = true) /\
  (Forall confined (listeners (projectState w)) ->
     canonical w' = canonical w ++ [new]).
Proof.
  intros Hwf Hsome r w' new.
  assert (Haccept : getUserInput this w
            = (Some (titleInputElement this, descInputElement this,
                     toNumber (peopleInputElement this)), w)).
  { unfold getUserInput.
    destruct (validateInput (mkValidatable (VStr (titleInputElement this)) _ _ _ _ _));
    destruct (validateInput (mkValidatable (VStr (descInputElement this)) _ _ _ _ _));
    destruct (validateInput (mkValidatable (VNum _) _ _ _ _ _));
    simpl; try reflexivity.
    destruct Hsome as [?|[?|?]]; discriminate. }
  set (r0 := addProject (titleInputElement this) (descInputElement this)
                        (toNumber (peopleInputElement this)) random w).
  assert (Hr : r = match r0 with
                   | Returns w2 => Returns (clearUserInput this, w2)
                   | Throws w2 => Throws (this, w2)
                   end).
  { subst r r0. unfold submitHandler. rewrite Haccept. reflexivity. }
  assert (Hw' : w' = outcome_state r0).
  { subst w'. rewrite Hr. now destruct r0. }
  split; [|split; [|split]].
  - rewrite Hw'. subst r0.
    unfold addProject, new_Project.
    destruct (push_new_canonical w new Hwf) as [_ Hcan0].
    match goal with |- context [updateListeners ?x] => set (w0 := x) in * end.
    destruct (updateListeners_log w0) as (ds & Hlog & _).
    replace (canonical w0) with (canonical w ++ [new]) in Hlog
      by (symmetry; exact Hcan0).
    change (log w0) with (log w) in Hlog.
    assert (Hquiet : forall k,
      List.existsb (fun e => match e with EvAlert _ => true | _ => false end)
                   (calls k ds) = false).
    { clear. induction ds as [|[a items] ds IH]; intros k; [reflexivity|apply IH]. }
    destruct (updateListeners w0) as [w2|w2]; simpl.
    + destruct Hlog as [_ ->]. exists (calls 0 ds).
      split; [reflexivity|]. split; [apply calls_notifications|apply Hquiet].
    + destruct Hlog as [_ (a & items & -> & _)].
      exists (calls 0 ds ++ [EvInvoke (length ds) a items]).
      split; [reflexivity|]. split.
      * rewrite notifications_app, calls_notifications. reflexivity.
      * rewrite List.existsb_app, Hquiet. reflexivity.
  - rewrite Hr. now destruct r0.
  - intros Htot. rewrite Hr.
    assert (Hret : returned r0 = true).
    { subst r0. unfold addProject, new_Project. now apply updateListeners_total. }
    now destruct r0.
  - intros Hls. rewrite Hw'. subst r0.
    now destruct (addProject_canonical (titleInputElement this)
                    (descInputElement this) (toNumber (peopleInputElement this))
                    random w Hwf Hls) as (_ & _ & ?).
Qed.


(** ** Runs of store operations, continued *)

Section MovedFacts.
Context `{JSNumber}.

Lemma has_id_with_status (projectId : string) (s : ProjectStatus) (p : Project) :
  has_id projectId (with_status s p) = has_id projectId p.
Proof. reflexivity. Qed.

Lemma find_moved (projectId : string) (s : ProjectStatus) (ps : list Project) :
  List.find (has_id projectId) (moved projectId s ps)
    = with_status s <$> List.find (has_id projectId) ps.
Proof.
  induction ps as [|p ps IH]; [reflexivity|].
  simpl. destruct (has_id projectId p) eqn:Hp; simpl.
  - now rewrite has_id_with_status, Hp.
  - now rewrite Hp.
Qed.

Lemma moved_moved (projectId : string) (s s' : ProjectStatus) (ps : list Project) :
  moved projectId s' (moved projectId s ps) = moved projectId s' ps.
Proof.
  induction ps as [|p ps IH]; [reflexivity|].
  simpl. destruct (has_id projectId p) eqn:Hp; simpl.
  - now rewrite has_id_with_status, Hp.
  - now rewrite Hp, IH.
Qed.

Lemma moved_comm (i j : string) (s s' : ProjectStatus) (ps : list Project) :
  i <> j ->
  moved i s (moved j s' ps) = moved j s' (moved i s ps).
Proof.
  intros Hij. induction ps as [|p ps IH]; [reflexivity|].
  simpl. destruct (has_id i p) eqn:Hi, (has_id j p) eqn:Hj; simpl;
    rewrite ?has_id_with_status, ?Hi, ?Hj; try reflexivity.
  - unfold has_id in Hi, Hj. apply String.eqb_eq in Hi, Hj. congruence.
  - now rewrite IH.
Qed.

Lemma moved_app_fresh (projectId : string) (s : ProjectStatus)
    (ps qs : list Project) :
  Forall (fun p => id p <> projectId) ps ->
  moved projectId s (ps ++ qs) = ps ++ moved projectId s qs.
Proof.
  induction 1 as [|p ps Hp _ IH]; [reflexivity|].
  simpl. unfold has_id at 1. apply String.eqb_neq in Hp. rewrite Hp.
  now rewrite IH.
Qed.

Lemma op_effect_length (op : Op) (ps : list Project) :
  length (op_effect op ps) = length ps + length (draws [op]).
Proof.
  destruct op as [l|t d n r|i s]; cbn.
  - lia.
  - rewrite length_app. reflexivity.
  - rewrite moved_length. lia.
Qed.

Lemma effects_length (ops : list Op) (ps : list Project) :
  length (fold_left (fun ps op => op_effect op ps) ops ps)
    = length ps + length (draws ops).
Proof.
  revert ps. induction ops as [|op ops IH]; intros ps.
  - simpl. lia.
  - cbn [fold_left]. rewrite IH, op_effect_length, (draws_cons op ops), length_app.
    lia.
Qed.

(** A project that comes after a project of the same id is out of reach of
    every operation. *)
Lemma op_effect_shadowed (op : Op) (ps : list Project) (i j : nat) (p q : Project) :
  i < j -> ps !! i = Some p -> ps !! j = Some q -> id p = id q ->
  exists p', op_effect op ps !! i = Some p' /\ id p' = id p /\
             op_effect op ps !! j = Some q.
Proof.
  intros Hij Hp Hq Hid.
  destruct (op_effect_lookup op ps i p Hp) as (p' & Hp' & Hcase).
  exists p'. split; [exact Hp'|]. split.
  { destruct Hcase as [->|(s & _ & ->)]; reflexivity. }
  destruct op as [l|t d n r|pid s]; simpl in *.
  - exact Hq.
  - now apply lookup_app_l_Some.
  - destruct (lookup_lt_is_Some_2 (moved pid s ps) j) as [q' Hq'].
    { rewrite moved_length. eapply lookup_lt_Some. exact Hq. }
    destruct (moved_lookup _ _ _ _ _ _ Hq Hq') as [->|(_ & Hqid & Hfirst)];
      [exact Hq'|].
    specialize (Hfirst i p Hij Hp). unfold has_id in Hqid, Hfirst.
    rewrite Hid in Hfirst. congruence.
Qed.

Lemma effects_shadowed (ops : list Op) (ps : list Project) (i j : nat) (p q : Project) :
  i < j -> ps !! i = Some p -> ps !! j = Some q -> id p = id q ->
  fold_left (fun ps op => op_effect op ps) ops ps !! j = Some q.
Proof.
  revert ps p. induction ops as [|op ops IH]; intros ps p Hij Hp Hq Hid;
    [exact Hq|].
  destruct (op_effect_shadowed op ps i j p q Hij Hp Hq Hid) as (p' & Hp' & Hid' & Hq').
  cbn [fold_left]. apply (IH _ p'); auto. congruence.
Qed.

Lemma step_store (op : Op) (w : World) :
  wf w -> Forall confined (listeners (projectState w)) ->
  projects (projectState (step op w)) = projects (projectState w) /\
  listeners (projectState (step op w))
    = listeners (projectState w) ++ subscribed [op].
Proof.
  intros Hwf Hls. destruct op as [l|t d n r|i s]; cbn [step].
  - split; reflexivity.
  - destruct (addProject_canonical t d n r w Hwf Hls) as (_ & Hs & _).
    rewrite Hs. split; [reflexivity|]. symmetry. apply app_nil_r.
  - destruct (moveProject_canonical i s w Hwf Hls) as (_ & Hs & _).
    rewrite Hs. split; [reflexivity|]. symmetry. apply app_nil_r.
Qed.

Lemma subscribed_cons (op : Op) (ops : list Op) :
  subscribed (op :: ops) = subscribed [op] ++ subscribed ops.
Proof. unfold subscribed. cbn. destruct op; reflexivity. Qed.

Lemma run_store (ops : list Op) (w : World) :
  wf w -> Forall confined (listeners (projectState w)) ->
  Forall confined_op ops ->
  projects (projectState (run ops w)) = projects (projectState w) /\
  listeners (projectState (run ops w))
    = listeners (projectState w) ++ subscribed ops.
Proof.
  revert w. induction ops as [|op ops IH]; intros w Hwf Hls Hops.
  - cbn. now rewrite app_nil_r.
  - apply Forall_cons in Hops as [Hop Hops].
    destruct (step_canonical op w Hwf Hls Hop) as (Hwf1 & Hls1 & _).
    destruct (step_store op w Hwf Hls) as [Hp1 Hl1].
    unfold run. cbn [fold_left]. fold (run ops (step op w)).
    destruct (IH (step op w) Hwf1 Hls1 Hops) as [-> ->].
    rewrite (subscribed_cons op ops), Hp1, Hl1, app_assoc. auto.
Qed.

End MovedFacts.

(** X4. Along every run of store operations from a well-formed state, with
    listeners that write to nothing but the arrays they are given, the
    store stays well formed, its array is never replaced by another one,
    and its listeners are those it had followed by the ones subscribed
    along the run, in order: no listener is ever removed or moved. *)
Theorem store_stays_well_formed_along_runs
    (N : JSNumber) (ops : list Op) (w : World) :
  wf w -> Forall confined (listeners (projectState w)) ->
  Forall confined_op ops ->
  wf (run ops w) /\
  projects (projectState (run ops w)) = projects (projectState w) /\
  listeners (projectState (run ops w))
    = listeners (projectState w) ++ subscribed ops /\
  Forall confined (listeners (projectState (run ops w))).
Proof.
  intros Hwf Hls Hops.
  destruct (run_canonical ops w Hwf Hls Hops) as (Hwf' & Hls' & _).
  destruct (run_store ops w Hwf Hls Hops) as [Hp Hl]. auto.
Qed.

(** X5. Along every such run no project is ever removed: the list has as
    many projects as it had plus one for each creation of the run. *)
Theorem projects_are_never_removed
    (N : JSNumber) (ops : list Op) (w : World) :
  wf w -> Forall confined (listeners (projectState w)) ->
  Forall confined_op ops ->
  length (canonical (run ops w)) = length (canonical w) + length (draws ops).
Proof.
  intros Hwf Hls Hops.
  destruct (run_canonical ops w Hwf Hls Hops) as (_ & _ & ->).
  apply effects_length.
Qed.

(** X6. Moving a project to the same status a second time does nothing:
    after [moveProject] of an id to a status, the same call returns the
    state as it is, so that no listener is called again. *)
Theorem moveProject_again_is_silent
    (N : JSNumber) (projectId : string) (s : ProjectStatus) (w : World) :
  wf w -> Forall confined (listeners (projectState w)) ->
  let w1 := outcome_state (moveProject projectId s w) in
  moveProject projectId s w1 = Returns w1.
Proof.
  intros Hwf Hls w1.
  destruct (moveProject_canonical projectId s w Hwf Hls) as (_ & _ & _ & Hcan).
  fold w1 in Hcan.
  pose proof (moveProject_cases projectId s w1) as Hcases.
  rewrite Hcan, find_moved in Hcases.
  destruct (List.find (has_id projectId) (canonical w)) as [p|]; simpl in Hcases;
    [|exact Hcases].
  destruct s, (status p); simpl in Hcases; exact Hcases.
Qed.

(** X7. Of two successive moves of the same id the last one decides: the
    list is the one the second move alone would give.  So moving a
    project away and back to the status it had gives the list back. *)
Theorem successive_moves_last_wins
    (N : JSNumber) (projectId : string) (s s' : ProjectStatus) (w : World) :
  wf w -> Forall confined (listeners (projectState w)) ->
  canonical (run [OpMoveProject projectId s; OpMoveProject projectId s'] w)
    = canonical (run [OpMoveProject projectId s'] w) /\
  (forall p, List.find (has_id projectId) (canonical w) = Some p ->
             status p = s' ->
     canonical (run [OpMoveProject projectId s; OpMoveProject projectId s'] w)
       = canonical w).
Proof.
  intros Hwf Hls.
  assert (H2 : Forall confined_op
                 [OpMoveProject projectId s; OpMoveProject projectId s'])
    by (repeat constructor).
  destruct (run_canonical _ w Hwf Hls H2) as (_ & _ & Hcan2).
  assert (H1 : Forall confined_op [OpMoveProject projectId s'])
    by (repeat constructor).
  destruct (run_canonical _ w Hwf Hls H1) as (_ & _ & Hcan1).
  rewrite Hcan1, Hcan2. cbn [fold_left op_effect]. rewrite moved_moved.
  split; [reflexivity|].
  intros p Hfind <-. now apply moved_same.
Qed.

(** X8. Moves of different ids commute: either order gives the same list. *)
Theorem moves_of_different_ids_commute
    (N : JSNumber) (i j : string) (s s' : ProjectStatus) (w : World) :
  wf w -> Forall confined (listeners (projectState w)) ->
  i <> j ->
  canonical (run [OpMoveProject i s; OpMoveProject j s'] w)
    = canonical (run [OpMoveProject j s'; OpMoveProject i s] w).
Proof.
  intros Hwf Hls Hij.
  assert (H1 : Forall confined_op [OpMoveProject i s; OpMoveProject j s'])
    by (repeat constructor).
  assert (H2 : Forall confined_op [OpMoveProject j s'; OpMoveProject i s])
    by (repeat constructor).
  destruct (run_canonical _ w Hwf Hls H1) as (_ & _ & ->).
  destruct (run_canonical _ w Hwf Hls H2) as (_ & _ & ->).
  cbn. symmetry. now apply moved_comm.
Qed.

(** X9. A creation followed by a move of the id drawn: when no project of
    the list has that id, it is the new project that ends up with the new
    status; when one has, the move reaches the first such project and the
    new one stays Active. *)
Theorem create_then_move_by_drawn_id
    (N : JSNumber) (t d : string) (n : number) (r : string)
    (s : ProjectStatus) (w : World) :
  wf w -> Forall confined (listeners (projectState w)) ->
  let w' := run [OpAddProject t d n r; OpMoveProject r s] w in
  (Forall (fun p => id p <> r) (canonical w) ->
     canonical w' = canonical w ++ [mkProject r t d n s]) /\
  (forall p, List.find (has_id r) (canonical w) = Some p ->
     canonical w' = moved r s (canonical w) ++ [mkProject r t d n Active]).
Proof.
  intros Hwf Hls w'.
  assert (Hops : Forall confined_op [OpAddProject t d n r; OpMoveProject r s])
    by (repeat constructor).
  destruct (run_canonical _ w Hwf Hls Hops) as (_ & _ & Hcan).
  subst w'. rewrite Hcan. clear Hcan. cbn [fold_left op_effect]. split.
  - intros Hfresh. rewrite (moved_app_fresh _ _ _ _ Hfresh). cbn.
    unfold has_id. cbn. now rewrite String.eqb_refl.
  - intros p Hfind.
    induction (canonical w) as [|q ps IH]; [discriminate|].
    cbn in Hfind |- *. destruct (has_id r q); [reflexivity|].
    now rewrite (IH Hfind).
Qed.

(** X10. A project that comes after a project of the same id can never be
    moved: along every run it stays as it is, status included, since
    [moveProject] stops at the first project of an id and ids never
    change. *)
Theorem shadowed_project_never_moves
    (N : JSNumber) (ops : list Op) (w : World) (i j : nat) (p q : Project) :
  wf w -> Forall confined (listeners (projectState w)) ->
  Forall confined_op ops ->
  i < j -> canonical w !! i = Some p -> canonical w !! j = Some q ->
  id p = id q ->
  canonical (run ops w) !! j = Some q.
Proof.
  intros Hwf Hls Hops Hij Hp Hq Hid.
  destruct (run_canonical ops w Hwf Hls Hops) as (_ & _ & ->).
  now apply (effects_shadowed ops _ i j p q).
Qed.

(** ** Arrays handed to the listeners, continued *)

Section ArrayFacts.
Context `{JSNumber}.

Lemma notify_from_old_arrays (k : nat) (ls : list Listener) (w : World) (b : aref) :
  wf w -> Forall confined ls -> b < length (arrays (heap w)) ->
  arrays (heap (outcome_state (notify_from k ls w))) !! b = arrays (heap w) !! b.
Proof.
  revert k w. induction ls as [|l ls IH]; intros k w Hwf Hls Hb; [reflexivity|].
  apply Forall_cons in Hls as [Hl Hls]. cbn [notify_from].
  pose proof (notify_step_kept w l Hwf Hl) as Hstep.
  pose proof (slice_items w) as Hsl.
  unfold slice, new_array in *. destruct Hsl as (_ & _ & _).
  pose proof (Hl (length (arrays (heap w)))
                 (mkHeap (objects (heap w))
                         (arrays (heap w)
                          ++ [read_array (projects (projectState w)) (heap w)])))
    as Hgrow.
  destruct Hgrow as (_ & Hlen & Hoth);
    [cbn [arrays]; rewrite length_app; cbn [length]; lia|].
  cbn [arrays] in Hlen, Hoth. rewrite length_app in Hlen, Hoth.
  cbn [length] in Hlen, Hoth.
  assert (Hb2 : forall h2,
    h2 = outcome_state
           (l (length (arrays (heap w)))
              (mkHeap (objects (heap w))
                      (arrays (heap w)
                       ++ [read_array (projects (projectState w)) (heap w)]))) ->
    arrays h2 !! b = arrays (heap w) !! b /\ b < length (arrays h2)).
  { intros h2 ->. rewrite Hoth by lia. cbn [arrays].
    rewrite lookup_app_l by exact Hb. split; [reflexivity|lia]. }
  destruct (l _ _) as [h2|h2] eqn:Hr; cbn [outcome_state] in *.
  - match goal with |- context [notify_from (S k) ls ?x] => set (w2 := x) end.
    assert (Hk : store_kept w w2) by (apply Hstep; reflexivity).
    destruct (Hb2 h2 eq_refl) as [Heq Hlt].
    rewrite (IH (S k) w2); [exact Heq|eapply store_kept_wf; eauto|exact Hls|exact Hlt].
  - apply (Hb2 h2 eq_refl).
Qed.

Lemma notify_from_arrays_grow (k : nat) (ls : list Listener) (w : World) :
  wf w -> Forall confined ls ->
  length (arrays (heap w)) <= length (arrays (heap (outcome_state (notify_from k ls w)))).
Proof.
  intros Hwf Hls. now destruct (notify_from_kept k ls w Hwf Hls) as (_ & _ & ? & _).
Qed.

Lemma step_old_arrays (op : Op) (w : World) (b : aref) :
  wf w -> Forall confined (listeners (projectState w)) ->
  b < length (arrays (heap w)) -> b <> projects (projectState w) ->
  arrays (heap (step op w)) !! b = arrays (heap w) !! b /\
  b < length (arrays (heap (step op w))).
Proof.
  intros Hwf Hls Hb Hne. destruct op as [l|t d n r|i s]; cbn [step].
  - auto.
  - unfold addProject, new_Project.
    destruct (push_new_canonical w (mkProject r t d n Active) Hwf) as [Hwf0 _].
    match goal with |- context [updateListeners ?x] => set (w0 := x) in * end.
    assert (Hb0 : b < length (arrays (heap w0)))
      by (subst w0; cbn; now rewrite length_insert).
    unfold updateListeners. split.
    + pose proof (notify_from_old_arrays 0 (listeners (projectState w0))
                    (log_event (EvNotify (canonical w0)) w0) b Hwf0 Hls Hb0) as Hold.
      rewrite Hold. subst w0. cbn. now apply list_lookup_insert_ne.
    + pose proof (notify_from_arrays_grow 0 (listeners (projectState w0))
                    (log_event (EvNotify (canonical w0)) w0) Hwf0 Hls) as Hg.
      eapply Nat.lt_le_trans; [exact Hb0|exact Hg].
  - pose proof (moveProject_cases i s w) as Hcases.
    destruct (List.find (has_id i) (canonical w)) as [p|];
      [|rewrite Hcases; auto].
    destruct (ProjectStatus_eqb (status p) s); [rewrite Hcases; auto|].
    destruct Hcases as (o & _ & ->).
    set (w0 := set_heap (write_object o (with_status s p) (heap w)) w).
    assert (Hwf0 : wf w0) by now apply write_status_wf.
    unfold updateListeners. split.
    + pose proof (notify_from_old_arrays 0 (listeners (projectState w0))
                    (log_event (EvNotify (canonical w0)) w0) b Hwf0 Hls Hb) as Hold.
      now rewrite Hold.
    + pose proof (notify_from_arrays_grow 0 (listeners (projectState w0))
                    (log_event (EvNotify (canonical w0)) w0) Hwf0 Hls) as Hg.
      eapply Nat.lt_le_trans; [exact Hb|exact Hg].
Qed.





End ArrayFacts.

(** X11. An array other than the store's own, such as the array a listener
    was given, is never written to by the store: along every run of store
    operations (with listeners that write to nothing but the arrays they
    are given) it keeps the elements it had, so that projects created
    later do not appear in it. *)
Theorem delivered_arrays_are_never_rewritten
    (N : JSNumber) (ops : list Op) (w : World) (b : aref) :
  wf w -> Forall confined (listeners (projectState w)) ->
  Forall confined_op ops ->
  b < length (arrays (heap w)) -> b <> projects (projectState w) ->
  read_array b (heap (run ops w)) = read_array b (heap w).
Proof.
  revert w. induction ops as [|op ops IH]; intros w Hwf Hls Hops Hb Hne;
    [reflexivity|].
  apply Forall_cons in Hops as [Hop Hops].
  destruct (step_canonical op w Hwf Hls Hop) as (Hwf1 & Hls1 & _).
  destruct (step_store op w Hwf Hls) as [Hp1 _].
  destruct (step_old_arrays op w b Hwf Hls Hb Hne) as [Heq Hlt].
  unfold run. cbn [fold_left]. fold (run ops (step op w)).
  rewrite (IH (step op w) Hwf1 Hls1 Hops Hlt) by (now rewrite Hp1).
  unfold read_array. now rewrite Heq.
Qed.



(** ** Drag and drop *)

Lemma find_after_setData (format data : string) (l : list (string * string)) :
  List.find (fun e => String.eqb (fst e) format)
            (List.filter (fun e => negb (String.eqb (fst e) format)) l
             ++ [(format, data)])
    = Some (format, data).
Proof.
  induction l as [|[f d] l IH]; cbn.
  - now rewrite String.eqb_refl.
  - destruct (String.eqb f format) eqn:Hf; cbn; [exact IH|].
    now rewrite Hf.
Qed.

Lemma getData_setData (format data : string) (dt : DataTransfer) :
  getData format (setData format data dt) = data.
Proof. unfold getData, setData. cbn. now rewrite find_after_setData. Qed.

Lemma getData_setData_other (format other data : string) (dt : DataTransfer) :
  other <> format ->
  getData other (setData format data dt) = getData other dt.
Proof.
  intros Hne. unfold getData, setData. cbn.
  induction (dt_store dt) as [|[f d] l IH]; cbn.
  - apply String.eqb_neq in Hne. rewrite String.eqb_sym in Hne. now rewrite Hne.
  - destruct (String.eqb f format) eqn:Hf; cbn.
    + apply String.eqb_eq in Hf. subst f.
      apply String.eqb_neq in Hne. rewrite String.eqb_sym in Hne.
      now rewrite Hne.
    + destruct (String.eqb f other); [reflexivity|exact IH].
Qed.

Lemma classList_remove_add (token : string) (classes : list string) :
  ~ In token classes ->
  classList_remove token (classList_add token classes) = classes.
Proof.
  intros Hnot. unfold classList_add.
  assert (Hkeep : classList_remove token classes = classes).
  { unfold classList_remove. induction classes as [|c cs IH]; [reflexivity|].
    cbn. destruct (String.eqb c token) eqn:Hc.
    - apply String.eqb_eq in Hc. subst c. destruct Hnot. now left.
    - cbn. f_equal. apply IH. intros Hin. apply Hnot. now right. }
  destruct (List.existsb (String.eqb token) classes); [exact Hkeep|].
  unfold classList_remove in *. rewrite List.filter_app, Hkeep. cbn.
  rewrite String.eqb_refl. cbn. apply app_nil_r.
Qed.

Lemma classList_remove_gone (token : string) (classes : list string) :
  ~ In token (classList_remove token classes).
Proof.
  unfold classList_remove. intros Hin. apply List.filter_In in Hin as [_ Hin].
  now rewrite String.eqb_refl in Hin.
Qed.

Lemma classList_add_twice (token : string) (classes : list string) :
  classList_add token (classList_add token classes) = classList_add token classes.
Proof.
  unfold classList_add.
  destruct (List.existsb (String.eqb token) classes) eqn:Hin.
  - now rewrite Hin.
  - rewrite List.existsb_app. cbn.
    now rewrite String.eqb_refl, orb_true_r.
Qed.

(** X14. Dragging the item of a project and dropping it on a list:
    [dragStartHandler] puts the id of the project into the transfer as
    plain text, leaving the data of other formats as they were, and allows
    the effect "move"; [dropHandler] on that event is [moveProject] of
    this id to the status of the list.  When the transfer was empty at the
    start of the drag, [dragOverHandler] accepts the event; when a first
    format other than plain text was there already, it refuses it, the id
    being in the transfer notwithstanding. *)
Theorem drag_then_drop_is_moveProject
    (N : JSNumber) (h : Heap) (project : oref) (p : Project)
    (dt : DataTransfer) (event : DragEvent) :
  deref h project = Some p -> dataTransfer event = Some dt ->
  exists dt',
    let event' := mkDragEvent (Some dt') (defaultPrevented event) in
    dragStartHandler h project event = Returns event' /\
    effectAllowed dt' = "move" /\
    getData "text/plain" dt' = id p /\
    (forall format, format <> "text/plain" ->
       getData format dt' = getData format dt) /\
    (forall type w,
       ProjectList_dropHandler type event' w
         = moveProject (id p) (list_status type) w) /\
    (forall classes,
       dt_store dt = [] ->
       dragOverHandler classes event'
         = (preventDefault event', classList_add "droppable" classes)) /\
    (forall classes format data rest,
       dt_store dt = (format, data) :: rest -> format <> "text/plain" ->
       dragOverHandler classes event' = (event', classes)).
Proof.
  intros Hp Hdt.
  exists (mkDataTransfer (dt_store (setData "text/plain" (id p) dt)) "move").
  cbn zeta. split; [unfold dragStartHandler; now rewrite Hdt, Hp|].
  split; [reflexivity|]. split; [apply (getData_setData "text/plain")|].
  split; [intros format Hf; now apply (getData_setData_other "text/plain")|].
  split; [|split].
  - intros type w. unfold ProjectList_dropHandler, dropHandler. cbn [dataTransfer].
    change (getData "text/plain" _)
      with (getData "text/plain" (setData "text/plain" (id p) dt)).
    rewrite getData_setData. now destruct type.
  - intros classes Hempty. unfold dragOverHandler, types, setData.
    cbn [dataTransfer dt_store]. rewrite Hempty. reflexivity.
  - intros classes format data rest Hstore Hne.
    unfold dragOverHandler, types, setData. cbn [dataTransfer dt_store].
    rewrite Hstore. cbn [List.filter fst].
    apply String.eqb_neq in Hne. rewrite Hne. cbn. now rewrite Hne.
Qed.

(** X15. The mark of a list that accepts a drag: repeated [dragover]
    events leave the class list as the first one did, [dragLeaveHandler]
    leaves no "droppable" in it, and a list that was not marked has, once
    the drag has passed over it and left, the class list it had. *)
Theorem droppable_mark_comes_and_goes
    (N : JSNumber) (classes : list string) (event : DragEvent) :
  snd (dragOverHandler (snd (dragOverHandler classes event)) event)
    = snd (dragOverHandler classes event) /\
  ~ In "droppable" (dragLeaveHandler (snd (dragOverHandler classes event))) /\
  (~ In "droppable" classes ->
     dragLeaveHandler (snd (dragOverHandler classes event)) = classes).
Proof.
  split; [|split].
  - unfold dragOverHandler. destruct (dataTransfer event) as [dt|]; [|reflexivity].
    destruct (types dt) as [|t ts]; [reflexivity|].
    destruct (String.eqb t "text/plain"); [|reflexivity].
    cbn [snd]. apply classList_add_twice.
  - apply classList_remove_gone.
  - intros Hnot. unfold dragLeaveHandler, dragOverHandler.
    assert (Hkeep : classList_remove "droppable" classes = classes).
    { unfold classList_remove. clear -Hnot.
      induction classes as [|c cs IH]; [reflexivity|].
      cbn [List.filter]. destruct (String.eqb c "droppable") eqn:Hc.
      - apply String.eqb_eq in Hc. subst c. destruct Hnot. now left.
      - cbn. f_equal. apply IH. intros Hin. apply Hnot. now right. }
    destruct (dataTransfer event) as [dt|]; [|exact Hkeep].
    destruct (types dt) as [|t ts]; [exact Hkeep|].
    destruct (String.eqb t "text/plain"); [|exact Hkeep].
    cbn [snd]. now apply classList_remove_add.
Qed.

(** ** The added statements at the example sessions *)

Lemma three_sheds_world_wf : wf three_sheds_world.
Proof.
  apply (program_states_well_formed three_sheds_session). repeat constructor.
Qed.

Lemma three_sheds_world_confined :
  Forall confined (listeners (projectState three_sheds_world)).
Proof.
  apply (program_states_well_formed three_sheds_session). repeat constructor.
Qed.



Lemma same_draw_world_wf : wf same_draw_world.
Proof.
  apply (program_states_well_formed same_draw_twice). repeat constructor.
Qed.

Lemma same_draw_world_confined :
  Forall confined (listeners (projectState same_draw_world)).
Proof.
  apply (program_states_well_formed same_draw_twice). repeat constructor.
Qed.

Lemma same_draw_world_canonical :
  canonical same_draw_world
    = [mkProject "0.5" "Build shed" "Outdoor storage" (IInt 2) Active;
       mkProject "0.5" "Paint fence" "Front garden" (IInt 3) Active].
Proof.
  unfold same_draw_world.
  destruct (program_states_well_formed same_draw_twice) as (_ & _ & ->);
    [repeat constructor|reflexivity].
Qed.

Lemma submit_accepted_witness :
  wf initial_world /\
  validateInput (mkValidatable (VStr "Outdoor storage") (Some true)
                               (Some (num_of_nat 5)) None None None) = true /\
  canonical (snd (outcome_state
                    (submitHandler (mkProjectInput "" "Outdoor storage" "3")
                                   "0.5" initial_world)))
    = canonical initial_world
      ++ [mkProject "0.5" "" "Outdoor storage" (IInt 3) Active].
Proof.
  split; [exact initial_world_wf|]. split; [reflexivity|].
  apply (submit_accepted_creates_project IntNumber
           (mkProjectInput "" "Outdoor storage" "3") "0.5" initial_world
           initial_world_wf).
  - right. left. reflexivity.
  - exact initial_world_confined.
Defined.

Lemma store_stays_well_formed_witness :
  wf initial_world /\
  Forall confined (listeners (projectState initial_world)) /\
  Forall confined_op shed_session /\
  wf (run shed_session initial_world) /\
  listeners (projectState (run shed_session initial_world))
    = listeners (projectState initial_world) ++ subscribed shed_session.
Proof.
  split; [exact initial_world_wf|]. split; [exact initial_world_confined|].
  split; [exact shed_session_confined|].
  destruct (store_stays_well_formed_along_runs IntNumber shed_session
              initial_world initial_world_wf initial_world_confined
              shed_session_confined) as (Hwf & _ & Hls & _).
  split; [exact Hwf|exact Hls].
Defined.

Lemma projects_are_never_removed_witness :
  wf initial_world /\
  Forall confined (listeners (projectState initial_world)) /\
  Forall confined_op shed_session /\
  length (canonical (run shed_session initial_world))
    = length (canonical initial_world) + length (draws shed_session).
Proof.
  split; [exact initial_world_wf|]. split; [exact initial_world_confined|].
  split; [exact shed_session_confined|].
  exact (projects_are_never_removed IntNumber shed_session initial_world
           initial_world_wf initial_world_confined shed_session_confined).
Defined.

Lemma moveProject_again_witness :
  wf shed_world /\
  Forall confined (listeners (projectState shed_world)) /\
  moveProject "0.5" Finished (outcome_state (moveProject "0.5" Finished shed_world))
    = Returns (outcome_state (moveProject "0.5" Finished shed_world)).
Proof.
  split; [exact shed_world_wf|]. split; [exact shed_world_confined|].
  exact (moveProject_again_is_silent IntNumber "0.5" Finished shed_world
           shed_world_wf shed_world_confined).
Defined.

Lemma successive_moves_witness :
  wf shed_world /\
  Forall confined (listeners (projectState shed_world)) /\
  canonical (run [OpMoveProject "0.5" Finished; OpMoveProject "0.5" Active] shed_world)
    = canonical shed_world.
Proof.
  split; [exact shed_world_wf|]. split; [exact shed_world_confined|].
  destruct (successive_moves_last_wins IntNumber "0.5" Finished Active shed_world
              shed_world_wf shed_world_confined) as [_ Hback].
  apply (Hback (mkProject (H := IntNumber)
                          "0.5" "Build shed" "Outdoor storage" (IInt 2) Active)).
  - rewrite shed_world_canonical. reflexivity.
  - reflexivity.
Defined.

Lemma moves_commute_witness :
  wf three_sheds_world /\
  Forall confined (listeners (projectState three_sheds_world)) /\
  "0.5" <> "0.75" /\
  canonical (run [OpMoveProject "0.5" Finished; OpMoveProject "0.75" Finished]
                 three_sheds_world)
    = canonical (run [OpMoveProject "0.75" Finished; OpMoveProject "0.5" Finished]
                     three_sheds_world).
Proof.
  assert (Hne : "0.5" <> "0.75") by discriminate.
  split; [exact three_sheds_world_wf|]. split; [exact three_sheds_world_confined|].
  split; [exact Hne|].
  exact (moves_of_different_ids_commute IntNumber "0.5" "0.75" Finished Finished
           three_sheds_world three_sheds_world_wf three_sheds_world_confined Hne).
Defined.

Lemma create_then_move_witness :
  wf shed_world /\
  Forall confined (listeners (projectState shed_world)) /\
  Forall (fun p => id p <> "0.25") (canonical shed_world) /\
  canonical (run [OpAddProject "Paint fence" "Front garden" (IInt 3) "0.25";
                  OpMoveProject "0.25" Finished] shed_world)
    = canonical shed_world
      ++ [mkProject "0.25" "Paint fence" "Front garden" (IInt 3) Finished].
Proof.
  assert (Hfresh : Forall (fun p => id p <> "0.25") (canonical shed_world)).
  { rewrite shed_world_canonical. repeat constructor. discriminate. }
  split; [exact shed_world_wf|]. split; [exact shed_world_confined|].
  split; [exact Hfresh|].
  exact (proj1 (create_then_move_by_drawn_id IntNumber
                  "Paint fence" "Front garden" (IInt 3) "0.25" Finished
                  shed_world shed_world_wf shed_world_confined) Hfresh).
Defined.

Lemma shadowed_project_witness :
  wf same_draw_world /\
  Forall confined (listeners (projectState same_draw_world)) /\
  let p := mkProject "0.5" "Build shed" "Outdoor storage" (IInt 2) Active in
  let q := mkProject "0.5" "Paint fence" "Front garden" (IInt 3) Active in
  canonical same_draw_world !! 0 = Some p /\
  canonical same_draw_world !! 1 = Some q /\
  canonical (run [OpMoveProject "0.5" Finished] same_draw_world) !! 1 = Some q.
Proof.
  split; [exact same_draw_world_wf|]. split; [exact same_draw_world_confined|].
  assert (H0 : canonical same_draw_world !! 0
               = Some (mkProject "0.5" "Build shed" "Outdoor storage" (IInt 2) Active))
    by (rewrite same_draw_world_canonical; reflexivity).
  assert (H1 : canonical same_draw_world !! 1
               = Some (mkProject "0.5" "Paint fence" "Front garden" (IInt 3) Active))
    by (rewrite same_draw_world_canonical; reflexivity).
  split; [exact H0|]. split; [exact H1|].
  eapply (shadowed_project_never_moves IntNumber [OpMoveProject "0.5" Finished]
            same_draw_world 0 1).
  - exact same_draw_world_wf.
  - exact same_draw_world_confined.
  - repeat constructor.
  - lia.
  - exact H0.
  - exact H1.
  - reflexivity.
Defined.

Lemma shed_world_arrays : length (arrays (heap shed_world)) = 5.
Proof. vm_compute. reflexivity. Qed.

Lemma shed_world_projects : projects (projectState shed_world) = 0.
Proof.
  unfold shed_world.
  now destruct (addProject_canonical (H := IntNumber)
                  "Build shed" "Outdoor storage" (IInt 2) "0.5"
                  initial_world initial_world_wf initial_world_confined)
    as (_ & -> & _).
Qed.

Lemma delivered_arrays_witness :
  wf shed_world /\
  Forall confined (listeners (projectState shed_world)) /\
  1 < length (arrays (heap shed_world)) /\
  1 <> projects (projectState shed_world) /\
  read_array 1 (heap (run [OpAddProject "Paint fence" "Front garden" (IInt 3) "0.25"]
                          shed_world))
    = read_array 1 (heap shed_world).
Proof.
  assert (Hb : 1 < length (arrays (heap shed_world)))
    by (rewrite shed_world_arrays; lia).
  assert (Hne : 1 <> projects (projectState shed_world))
    by (rewrite shed_world_projects; lia).
  split; [exact shed_world_wf|]. split; [exact shed_world_confined|].
  split; [exact Hb|]. split; [exact Hne|].
  apply (delivered_arrays_are_never_rewritten IntNumber _ shed_world 1
           shed_world_wf shed_world_confined); [repeat constructor|exact Hb|exact Hne].
Defined.


Lemma drag_then_drop_witness :
  let p := mkProject "0.5" "Build shed" "Outdoor storage" (IInt 2) Active in
  let event := mkDragEvent (Some (mkDataTransfer [] "uninitialized")) false in
  deref (heap shed_world) 0 = Some p /\
  exists dt',
    dragStartHandler (heap shed_world) 0 event
      = Returns (mkDragEvent (Some dt') false) /\
    ProjectList_dropHandler finished (mkDragEvent (Some dt') false) shed_world
      = moveProject "0.5" Finished shed_world.
Proof.
  intros p event.
  assert (Hp : deref (heap shed_world) 0 = Some p) by (vm_compute; reflexivity).
  split; [exact Hp|].
  destruct (drag_then_drop_is_moveProject IntNumber (heap shed_world) 0 p
              (mkDataTransfer [] "uninitialized") event Hp eq_refl)
    as (dt' & Hstart & _ & _ & _ & Hdrop & _).
  exists dt'. split; [exact Hstart|]. exact (Hdrop finished shed_world).
Defined.

(** * The array a listener is given *)

Section MutatorFacts.
Context `{JSNumber}.

Lemma run_addListeners (ls : list Listener) (w : World) :
  run (OpAddListener <$> ls) w
    = mkWorld (heap w)
              (mkProjectState (listeners (projectState w) ++ ls)
                              (projects (projectState w)))
              (log w).
Proof.
  revert w. induction ls as [|l ls IH]; intros w.
  - cbn. rewrite app_nil_r. now destruct w as [h [ls0 p] lg].
  - unfold run. cbn [fmap list_fmap fold_left step].
    fold (run (OpAddListener <$> ls) (addListener l w)). rewrite IH.
    cbn. now rewrite <- app_assoc.
Qed.

(** The arrays handed out by a notification that returned are new, and
    they are arrays of the heap it leaves. *)
Lemma notify_from_delivered (k : nat) (ls : list Listener) (w w1 : World) :
  wf w -> Forall confined ls ->
  notify_from k ls w = Returns w1 ->
  exists refs,
    length refs = length ls /\
    log w1 = log w ++ calls k (holding (canonical w) refs) /\
    Forall (fun a => length (arrays (heap w)) <= a < length (arrays (heap w1))) refs.
Proof.
  revert k w. induction ls as [|l ls IH]; intros k w Hwf Hls Hrun.
  - injection Hrun as <-. exists []. cbn. rewrite app_nil_r. auto.
  - apply Forall_cons in Hls as [Hl Hls]. cbn [notify_from] in Hrun.
    pose proof (notify_step_kept w l Hwf Hl) as Hstep.
    pose proof (slice_items w) as Hsl.
    unfold slice, new_array in Hrun, Hstep, Hsl.
    destruct Hsl as (_ & _ & Hitems). rewrite Hitems in Hrun.
    set (a := length (arrays (heap w))) in *.
    set (h1 := mkHeap (objects (heap w))
                 (arrays (heap w)
                  ++ [read_array (projects (projectState w)) (heap w)])) in *.
    assert (Ha1 : length (arrays h1) = S a)
      by (subst h1 a; cbn; rewrite length_app; cbn; lia).
    destruct (Hl a h1) as (_ & Hlen & _); [lia|].
    destruct (l a h1) as [h2|h2]; [|discriminate]. cbn [outcome_state] in *.
    match type of Hrun with notify_from (S k) ls ?x = _ => set (w2 := x) in * end.
    assert (Hk : store_kept w w2) by (apply Hstep; reflexivity).
    assert (Hwf2 : wf w2) by (eapply store_kept_wf; eauto).
    destruct (IH (S k) w2 Hwf2 Hls Hrun) as (refs & Hlen' & Hlog & Hb).
    pose proof (notify_from_kept (S k) ls w2 Hwf2 Hls) as Hk2.
    rewrite Hrun in Hk2. cbn [outcome_state] in Hk2.
    destruct Hk2 as (_ & _ & Hlen2 & _).
    change (heap w2) with h2 in Hlen2, Hb.
    exists (a :: refs). split; [cbn; lia|]. split.
    + rewrite Hlog. rewrite (store_kept_canonical _ _ Hwf Hk).
      subst w2. cbn. rewrite <- !app_assoc. reflexivity.
    + constructor; [lia|].
      eapply Forall_impl; [exact Hb|]. intros b Hbb. cbv beta in Hbb. lia.
Qed.

End MutatorFacts.

(** C3, as the code has it.  Take a well-formed state whose listeners write
    to nothing but the arrays they are given and whose notification
    returns, leaving [w1]; subscribe after them a listener that changes
    the array it is given in an arbitrary way [f], and after it any
    listeners [ls2] of the first kind.  In the notification of that state
    the listeners before it are given the same new arrays as before; then
    it is given an array [a] that did not exist, holding a copy of the
    store's array.  At the end [a] holds what [f] made of that copy; the
    store's array and every other array that existed when [a] was handed
    out, those handed to the listeners before it among them, are as they
    were then; the list of the store is as it was and so is every Project
    object.  Writing to [a] later on changes no other array and no object
    either.  (The objects themselves are shared, not copied.) *)
Theorem array_mutation_stays_in_snapshot
    (N : JSNumber) (w0 w1 : World) (f : list oref -> list oref)
    (ls2 : list Listener) :
  wf w0 -> Forall confined (listeners (projectState w0)) ->
  Forall confined ls2 ->
  updateListeners w0 = Returns w1 ->
  let w := run (OpAddListener <$> ls2) (addListener (array_mutator f) w0) in
  let w' := outcome_state (updateListeners w) in
  let n := length (listeners (projectState w0)) in
  let a := length (arrays (heap w1)) in
  let xs := read_array (projects (projectState w0)) (heap w0) in
  listeners (projectState w)
    = listeners (projectState w0) ++ array_mutator f :: ls2 /\
  (exists refs evs,
     length refs = n /\
     Forall (fun b => length (arrays (heap w0)) <= b < a) refs /\
     log w' = log w0 ++ EvNotify (canonical w0)
                     :: calls 0 (holding (canonical w0) refs)
                     ++ EvInvoke n a (canonical w0) :: EvComplete n :: evs) /\
  length (arrays (heap w0)) <= a /\
  a <> projects (projectState w0) /\
  read_array a (heap w') = f xs /\
  (forall b, b < a -> arrays (heap w') !! b = arrays (heap w1) !! b) /\
  read_array (projects (projectState w')) (heap w') = xs /\
  canonical w' = canonical w0 /\
  objects (heap w0) `prefix_of` objects (heap w') /\
  (forall ys b, b <> a ->
     read_array b (write_array a ys (heap w')) = read_array b (heap w') /\
     objects (write_array a ys (heap w')) = objects (heap w')).
Proof.
  intros Hwf0 Hls0 Hls2 Hrun0 w w' n a xs.
  assert (Hw : w = mkWorld (heap w0)
                     (mkProjectState
                        (listeners (projectState w0) ++ array_mutator f :: ls2)
                        (projects (projectState w0)))
                     (log w0)).
  { subst w. rewrite run_addListeners. cbn. now rewrite <- app_assoc. }
  set (st' := mkProjectState
                (listeners (projectState w0) ++ array_mutator f :: ls2)
                (projects (projectState w0))) in *.
  set (w0N := log_event (EvNotify (canonical w0)) w0).
  assert (Hwf0N : wf w0N) by exact Hwf0.
  unfold updateListeners in Hrun0. fold w0N in Hrun0.
  (* the listeners before the mutator *)
  destruct (notify_from_delivered 0 _ w0N w1 Hwf0N Hls0 Hrun0)
    as (refs & Hlen & Hlog1 & Hrefs).
  pose proof (notify_from_kept 0 _ w0N Hwf0N Hls0) as Hk1.
  rewrite Hrun0 in Hk1. cbn [outcome_state] in Hk1.
  assert (Hwf1 : wf w1) by (eapply store_kept_wf; eauto).
  pose proof (store_kept_read _ _ Hk1) as Hread1.
  pose proof (store_kept_canonical _ _ Hwf0N Hk1) as Hcan1.
  destruct Hk1 as (Hst1 & Hpre1 & Hlen1 & _).
  change (projectState w0N) with (projectState w0) in *.
  change (heap w0N) with (heap w0) in *.
  change (canonical w0N) with (canonical w0) in *.
  change (log w0N) with (log w0 ++ [EvNotify (canonical w0)]) in Hlog1.
  (* the run of the whole list *)
  assert (Hrun : updateListeners w
            = notify_from n (array_mutator f :: ls2)
                (mkWorld (heap w1) st' (log w1))).
  { unfold updateListeners. rewrite Hw.
    change (notify_from 0 _ _)
      with (notify_from 0 (listeners (projectState w0) ++ array_mutator f :: ls2)
              (mkWorld (heap w0N) st' (log w0N))).
    rewrite notify_from_app, notify_from_listeners by reflexivity.
    rewrite Hrun0. reflexivity. }
  cbn [notify_from] in Hrun.
  unfold slice, new_array, array_mutator at 1 in Hrun.
  cbn [heap projectState log projects st'] in Hrun.
  fold a in Hrun.
  assert (Hxs : read_array (projects (projectState w0)) (heap w1) = xs)
    by (rewrite <- Hst1; exact Hread1).
  rewrite Hxs in Hrun.
  assert (Hra : read_array a (mkHeap (objects (heap w1)) (arrays (heap w1) ++ [xs]))
                = xs).
  { unfold read_array. cbn. subst a. now rewrite list_lookup_middle. }
  rewrite Hra in Hrun.
  assert (Hitems : items_of a (mkHeap (objects (heap w1)) (arrays (heap w1) ++ [xs]))
                   = canonical w0).
  { unfold items_of. rewrite Hra. rewrite <- Hcan1. unfold canonical, items_of.
    rewrite Hst1, Hxs. reflexivity. }
  rewrite Hitems in Hrun.
  match type of Hrun with _ = notify_from (S n) ls2 ?x => set (w2 := x) in * end.
  assert (Hheap2 : heap w2 = mkHeap (objects (heap w1)) (arrays (heap w1) ++ [f xs])).
  { subst w2. unfold write_array. cbn. f_equal.
    rewrite insert_app_r_alt by (subst a; lia).
    subst a. now rewrite Nat.sub_diag. }
  assert (Hp1 : projects (projectState w0) < length (arrays (heap w1))).
  { destruct Hwf0 as (Hp & _). lia. }
  assert (Hwf2 : wf w2).
  { destruct Hwf1 as (_ & Hval & Hnd). unfold wf.
    replace (read_array (projects (projectState w2)) (heap w2)) with xs.
    - rewrite Hheap2. cbn [arrays objects]. rewrite length_app.
      split; [exact (Nat.lt_lt_add_r _ _ _ Hp1)|].
      rewrite Hst1, Hxs in Hval, Hnd. auto.
    - rewrite Hheap2. unfold read_array. cbn.
      rewrite lookup_app_l by exact Hp1. symmetry. exact Hxs. }
  pose proof (notify_from_kept (S n) ls2 w2 Hwf2 Hls2) as Hk2.
  pose proof (notify_from_events (S n) ls2 w2) as (evs & Hlog2 & _).
  pose proof (fun b => notify_from_old_arrays (S n) ls2 w2 b Hwf2 Hls2) as Hold.
  rewrite <- Hrun in Hk2, Hlog2, Hold. fold w' in Hk2, Hlog2, Hold.
  rewrite Hheap2 in Hold. cbn [arrays] in Hold. rewrite length_app in Hold.
  cbn [length] in Hold.
  pose proof (store_kept_read _ _ Hk2) as Hread2.
  pose proof (store_kept_canonical _ _ Hwf2 Hk2) as Hcan2.
  destruct Hk2 as (Hst2 & Hpre2 & _).
  assert (Hread_w2 : read_array (projects (projectState w2)) (heap w2) = xs).
  { rewrite Hheap2. unfold read_array. cbn.
    rewrite lookup_app_l by exact Hp1. exact Hxs. }
  split; [now rewrite Hw|].
  split.
  { exists refs, evs. split; [exact Hlen|]. split.
    - eapply Forall_impl; [exact Hrefs|]. intros b Hb. cbv beta in Hb. exact Hb.
    - assert (Hlogw2 : log w2
                = log w1 ++ [EvInvoke n a (canonical w0); EvComplete n]).
      { subst w2. cbn. rewrite <- app_assoc. reflexivity. }
      rewrite Hlog2, Hlogw2, Hlog1. rewrite <- !app_assoc. reflexivity. }
  split; [exact Hlen1|]. split; [lia|]. split.
  { unfold read_array. rewrite Hold by lia.
    subst a. now rewrite list_lookup_middle. }
  split.
  { intros b Hb. rewrite Hold by lia. now apply lookup_app_l. }
  split; [now rewrite Hread2|]. split.
  { rewrite Hcan2, <- Hcan1. unfold canonical, items_of.
    rewrite Hread_w2, Hheap2, Hst1, Hxs. reflexivity. }
  split.
  { etrans; [exact Hpre1|]. rewrite Hheap2 in Hpre2. exact Hpre2. }
  intros ys b Hb. split; [|reflexivity].
  unfold read_array, write_array. cbn. now rewrite list_lookup_insert_ne.
Qed.

Lemma shed_world_notified :
  updateListeners shed_world
    = Returns (outcome_state (updateListeners shed_world)).
Proof.
  pose proof (updateListeners_total shed_world shed_world_total) as Hret.
  destruct (updateListeners shed_world); [reflexivity|discriminate].
Qed.

Lemma array_mutation_witness :
  let w0 := shed_world in
  let w1 := outcome_state (updateListeners shed_world) in
  let f := fun xs : list oref => xs ++ xs in
  let ls2 := [array_mutator (fun _ => [])] in
  let w' := outcome_state
              (updateListeners
                 (run (OpAddListener <$> ls2)
                      (addListener (array_mutator f) w0))) in
  let a := length (arrays (heap w1)) in
  let xs := read_array (projects (projectState w0)) (heap w0) in
  wf w0 /\
  Forall confined (listeners (projectState w0)) /\
  Forall confined ls2 /\
  updateListeners w0 = Returns w1 /\
  read_array a (heap w') = xs ++ xs /\
  read_array (projects (projectState w')) (heap w') = xs /\
  canonical w' = canonical w0.
Proof.
  intros w0 w1 f ls2 w' a xs.
  assert (Hls2 : Forall confined ls2)
    by (constructor; [apply array_mutator_confined | constructor]).
  split; [exact shed_world_wf|]. split; [exact shed_world_confined|].
  split; [exact Hls2|]. split; [exact shed_world_notified|].
  destruct (array_mutation_stays_in_snapshot IntNumber w0 w1 f ls2
              shed_world_wf shed_world_confined Hls2 shed_world_notified)
    as (_ & _ & _ & _ & Ha & _ & Hxs & Hcan & _).
  split; [exact Ha|]. split; [exact Hxs|exact Hcan].
Defined.
